(** * Task log reader and pod watcher of the tkn command line

  A shallow embedding of [pkg/log/task_reader.go] and of the pod watcher
  ([package pods]: [Pod.Wait], [Pod.watcher], [checkPodStatus]), with the
  properties of the log pipeline that the specification states about them.

  Conventions.
  - A Go [string] is a [string] (a sequence of bytes).
  - A Go [error] is an [option string]: [None] is [nil], [Some m] is an
    error whose [Error()] text is [m].
  - A Go pointer that may be [nil] is an [option].
  - A Go [map[string]V] is a [gmap string V]; reading a missing key gives
    the zero value of [V].
  - What the cluster does (the API client, the container log streams, the
    scheduler of a [select]) is an explicit argument of the functions that
    call it. *)

From Stdlib Require Import ZArith Lia DecimalString.
From stdpp Require Import gmap strings list.

Local Open Scope string_scope.
Local Open Scope list_scope.

Definition error := option string.

(** ** Kubernetes core/v1 objects, as far as the readers look at them *)

Module corev1.

(** [type PodPhase string] and its constants. *)
Definition PodPhase := string.
Definition PodPending : PodPhase := "Pending".
Definition PodRunning : PodPhase := "Running".
Definition PodSucceeded : PodPhase := "Succeeded".
Definition PodFailed : PodPhase := "Failed".
Definition PodUnknown : PodPhase := "Unknown".

(** [type ConditionStatus string]. *)
Definition ConditionStatus := string.
Definition ConditionTrue : ConditionStatus := "True".
Definition ConditionFalse : ConditionStatus := "False".
Definition ConditionUnknown : ConditionStatus := "Unknown".

(** [type PodConditionType string]. *)
Definition PodConditionType := string.
Definition ContainersReady : PodConditionType := "ContainersReady".
Definition PodInitialized : PodConditionType := "Initialized".
Definition PodReady : PodConditionType := "Ready".
Definition PodScheduled : PodConditionType := "PodScheduled".

Record PodCondition := {
  pc_Type : PodConditionType;
  pc_Status : ConditionStatus;
  pc_Message : string
}.

Record ContainerStateWaiting := { w_Reason : string; w_Message : string }.
Record ContainerStateRunning := { r_StartedAt : Z }.
Record ContainerStateTerminated := { t_ExitCode : Z; t_Reason : string }.

(** Three pointers, at most one of which is set by the kubelet. *)
Record ContainerState := {
  Waiting : option ContainerStateWaiting;
  Running : option ContainerStateRunning;
  Terminated : option ContainerStateTerminated
}.

(** The zero value [ContainerState{}]. *)
Definition zeroContainerState : ContainerState :=
  {| Waiting := None; Running := None; Terminated := None |}.

Record ContainerStatus := { cs_Name : string; cs_State : ContainerState }.

Record Container := { c_Name : string; c_Image : string }.

Record Pod := {
  Name : string;
  Namespace : string;
  DeletionTimestamp : option Z;
  Phase : PodPhase;
  Conditions : list PodCondition;
  InitContainerStatuses : list ContainerStatus;
  ContainerStatuses : list ContainerStatus;
  InitContainers : list Container;
  Containers : list Container
}.

End corev1.

(** ** package pods *)

Module pods.
Import corev1.

(** What an informer hands to a handler is an [interface{}]: a [*corev1.Pod]
    or something else (a delete event may carry a tombstone). *)
Inductive object :=
| ObjPod (p : Pod)
| ObjOther.

(** The loop over [pod.Status.Conditions] of [checkPodStatus]: the first
    condition of type [PodInitialized] or [ContainersReady] whose status is
    [ConditionUnknown] ends it with that condition's message. *)
Fixpoint unknownCondition (cs : list PodCondition) : option string :=
  match cs with
  | [] => None
  | c :: cs' =>
      if (String.eqb (pc_Type c) PodInitialized || String.eqb (pc_Type c) ContainersReady)
         && String.eqb (pc_Status c) ConditionUnknown
      then Some (pc_Message c)
      else unknownCondition cs'
  end.

Definition readablePhase (ph : PodPhase) : bool :=
  String.eqb ph PodSucceeded || String.eqb ph PodRunning || String.eqb ph PodFailed.

(** [checkPodStatus]: the pair [(pod, err)] it returns. *)
Definition checkPodStatus (obj : object) : option Pod * error :=
  match obj with
  | ObjOther => (None, Some "failed to cast to pod object")
  | ObjPod pod =>
      match DeletionTimestamp pod with
      | Some _ => (Some pod, Some ("failed to run the pod " +:+ Name pod +:+ " "))
      | None =>
          if readablePhase (Phase pod) then (Some pod, None)
          else match unknownCondition (Conditions pod) with
               | Some m => (Some pod, Some m)
               | None => (None, None)
               end
      end
  end.

(** What [Pod.Wait] returns, when it returns. [got] is what the probe
    [p.Get()] at its start returns and [events] is what the informer has for
    the handlers, in order. The loop over [eventC] ends at the first event
    for which [checkPodStatus] gives a pod or an error; with no such event
    the call never returns, which is [None] here. Whether the call does
    return when an event decides is up to the goroutines, see [WaitOutcome]
    and the moves below. *)
Fixpoint waitLoop (events : list object) : option (option Pod * error) :=
  match events with
  | [] => None
  | e :: es =>
      match checkPodStatus e with
      | (None, None) => waitLoop es
      | res => Some res
      end
  end.

Definition Wait (got : option Pod * error) (events : list object)
  : option (option Pod * error) :=
  match snd got with
  | Some err => Some (None, Some err)
  | None => waitLoop events
  end.

(** How a call of [Pod.Wait] comes out for its caller: with an answer; not
    at all, the goroutines being stuck; or with the process brought down by
    a handler. *)
Inductive waited :=
| Answered (res : option Pod * error)
| Hangs
| Crashes.

(** The outcome of the watch. A handler that is given something that is not
    a pod while [stopC] is open panics in its log line. Events that do not
    decide are received and passed over. After the event that decides,
    [Wait] leaves its loop and its deferred function asks for the mutex: if
    no event follows, or if it gets the mutex before the handler of the next
    event does, it closes the channels and returns. If the handler of the
    next event gets the mutex first ([handlerFirst]), that handler finds
    [stopC] open, and either panics in its log line or stays in its send,
    which no one receives, with the mutex that [Wait] is waiting for. With
    no deciding event, [Wait] stays in its loop. *)
Fixpoint watchOutcome (handlerFirst : bool) (events : list object) : waited :=
  match events with
  | [] => Hangs
  | ObjOther :: _ => Crashes
  | ObjPod p :: es =>
      match checkPodStatus (ObjPod p) with
      | (None, None) => watchOutcome handlerFirst es
      | res =>
          match es with
          | [] => Answered res
          | next :: _ =>
              if handlerFirst then
                match next with
                | ObjPod _ => Hangs
                | ObjOther => Crashes
                end
              else Answered res
          end
      end
  end.

(** [Pod.Wait] as a whole: a failed probe is answered at once. *)
Definition WaitOutcome (got : option Pod * error) (handlerFirst : bool) (events : list object)
  : waited :=
  match snd got with
  | Some err => Answered (None, Some err)
  | None => watchOutcome handlerFirst events
  end.

(** [events] are: the events [pre], none of which decides; the pod [p],
    which decides; and the events [rest]. *)
Definition decidesAt (events pre : list object) (p : Pod) (rest : list object) : Prop :=
  events = pre ++ ObjPod p :: rest
  ∧ Forall (λ e, checkPodStatus e = (None, None)) pre
  ∧ checkPodStatus (ObjPod p) ≠ (None, None).

(** No event decides, or a pod event follows the deciding one and its
    handler gets the mutex first. *)
Definition hangsWhen (handlerFirst : bool) (events : list object) : Prop :=
  waitLoop events = None
  ∨ (handlerFirst = true
     ∧ ∃ pre p next rest, decidesAt events pre p (ObjPod next :: rest)).

(** Something that is not a pod is handled before an event has decided, or
    it follows the deciding event and its handler gets the mutex first. *)
Definition crashesWhen (handlerFirst : bool) (events : list object) : Prop :=
  (∃ pre rest, events = pre ++ ObjOther :: rest
               ∧ Forall (λ e, checkPodStatus e = (None, None)) pre)
  ∨ (handlerFirst = true
     ∧ ∃ pre p rest, decidesAt events pre p (ObjOther :: rest)).

(** *** The goroutines of [Pod.Wait]

    [Wait] runs in the caller's goroutine; the three handlers that [watcher]
    registers run, one call after the other, in the informer's goroutine.
    They share the mutex [mu], the channel [stopC] (only ever closed) and
    the unbuffered channel [eventC]. The bodies of [AddFunc], [UpdateFunc]
    and [DeleteFunc] are the same, so one handler program stands for all. *)

(** Where the goroutine of [Wait] is. *)
Inductive waiter :=
| WRecv                                  (* [for e := range eventC] *)
| WLock (res : option Pod * error)       (* deferred: [mu.Lock()] *)
| WCloseStop (res : option Pod * error)  (* deferred: [close(stopC)] *)
| WCloseEvent (res : option Pod * error) (* deferred: [close(eventC)] *)
| WUnlock (res : option Pod * error)     (* deferred: [mu.Unlock()] *)
| WReturned (res : option Pod * error).

(** Where the informer's goroutine is. *)
Inductive handler :=
| HIdle                 (* between two calls; the next one starts with [mu.Lock()] *)
| HSelect (obj : object) (* holds [mu]; [select] on [stopC] *)
| HSend (obj : object)   (* [default:] branch, [eventC <- obj] *)
| HUnlock               (* deferred [mu.Unlock()] *)
| HPanicked             (* sent on a closed channel *)
| HCrashed.             (* the log line of the [default:] branch asserts that
                           [obj] is a pod, and it is not: the panic, which
                           nothing in this package recovers, brings the
                           process down, and nothing moves any more *)

Inductive owner := ByWaiter | ByHandler.

Record world := {
  wt : waiter;
  hdl : handler;
  queue : list object;   (* notifications the informer has not delivered yet *)
  mu : option owner;
  stopClosed : bool;
  eventClosed : bool
}.

Definition start (events : list object) : world :=
  {| wt := WRecv; hdl := HIdle; queue := events; mu := None;
     stopClosed := false; eventClosed := false |}.

(** What [Wait] does with a received event. *)
Definition received (e : object) : waiter :=
  match checkPodStatus e with
  | (None, None) => WRecv
  | res => WLock res
  end.

(** One move of one goroutine. Locking needs the mutex free; in the
    [default:] branch a handler first prints the name of the pod, which
    panics when the event is not a pod, and then sends; a send on the
    unbuffered [eventC] happens together with the receive in [Wait]; a sender
    whose channel is closed panics; a receive from the closed [eventC] ends
    the [range]. *)
Inductive move : world → world → Prop :=
| handler_lock e q w sc ec :
    move {| wt := w; hdl := HIdle; queue := e :: q; mu := None; stopClosed := sc; eventClosed := ec |}
         {| wt := w; hdl := HSelect e; queue := q; mu := Some ByHandler; stopClosed := sc; eventClosed := ec |}
| handler_stopped e q w m ec :
    move {| wt := w; hdl := HSelect e; queue := q; mu := m; stopClosed := true; eventClosed := ec |}
         {| wt := w; hdl := HUnlock; queue := q; mu := m; stopClosed := true; eventClosed := ec |}
| handler_default p q w m ec :
    move {| wt := w; hdl := HSelect (ObjPod p); queue := q; mu := m; stopClosed := false; eventClosed := ec |}
         {| wt := w; hdl := HSend (ObjPod p); queue := q; mu := m; stopClosed := false; eventClosed := ec |}
| handler_crash q w m ec :
    move {| wt := w; hdl := HSelect ObjOther; queue := q; mu := m; stopClosed := false; eventClosed := ec |}
         {| wt := w; hdl := HCrashed; queue := q; mu := m; stopClosed := false; eventClosed := ec |}
| rendezvous e q m sc :
    move {| wt := WRecv; hdl := HSend e; queue := q; mu := m; stopClosed := sc; eventClosed := false |}
         {| wt := received e; hdl := HUnlock; queue := q; mu := m; stopClosed := sc; eventClosed := false |}
| send_on_closed e q w m sc :
    move {| wt := w; hdl := HSend e; queue := q; mu := m; stopClosed := sc; eventClosed := true |}
         {| wt := w; hdl := HPanicked; queue := q; mu := m; stopClosed := sc; eventClosed := true |}
| handler_unlock q w m sc ec :
    move {| wt := w; hdl := HUnlock; queue := q; mu := m; stopClosed := sc; eventClosed := ec |}
         {| wt := w; hdl := HIdle; queue := q; mu := None; stopClosed := sc; eventClosed := ec |}
| range_closed h q m sc :
    move {| wt := WRecv; hdl := h; queue := q; mu := m; stopClosed := sc; eventClosed := true |}
         {| wt := WLock (None, None); hdl := h; queue := q; mu := m; stopClosed := sc; eventClosed := true |}
| waiter_lock res h q sc ec :
    move {| wt := WLock res; hdl := h; queue := q; mu := None; stopClosed := sc; eventClosed := ec |}
         {| wt := WCloseStop res; hdl := h; queue := q; mu := Some ByWaiter; stopClosed := sc; eventClosed := ec |}
| waiter_close_stop res h q m sc ec :
    move {| wt := WCloseStop res; hdl := h; queue := q; mu := m; stopClosed := sc; eventClosed := ec |}
         {| wt := WCloseEvent res; hdl := h; queue := q; mu := m; stopClosed := true; eventClosed := ec |}
| waiter_close_event res h q m sc ec :
    move {| wt := WCloseEvent res; hdl := h; queue := q; mu := m; stopClosed := sc; eventClosed := ec |}
         {| wt := WUnlock res; hdl := h; queue := q; mu := m; stopClosed := sc; eventClosed := true |}
| waiter_unlock res h q m sc ec :
    move {| wt := WUnlock res; hdl := h; queue := q; mu := m; stopClosed := sc; eventClosed := ec |}
         {| wt := WReturned res; hdl := h; queue := q; mu := None; stopClosed := sc; eventClosed := ec |}.

(** The states an execution can be in: reflexive-transitive closure. *)
Inductive reachable (w0 : world) : world → Prop :=
| reach_start : reachable w0 w0
| reach_step w w' : reachable w0 w → move w w' → reachable w0 w'.

(** No goroutine can move. *)
Definition stuck (w : world) : Prop := ∀ w', ¬ move w w'.

Definition returned (w : world) : Prop := ∃ res, wt w = WReturned res.

(** A pod from which logs can be read. *)
Definition readable (pod : Pod) : Prop :=
  Phase pod = PodSucceeded ∨ Phase pod = PodRunning ∨ Phase pod = PodFailed.

(** A condition that reports a pod that cannot start. *)
Definition unknown (c : PodCondition) : Prop :=
  (pc_Type c = PodInitialized ∨ pc_Type c = ContainersReady) ∧ pc_Status c = ConditionUnknown.

(** *** What holds in every state of the goroutines of [Pod.Wait] *)

Definition handlerHolds (h : handler) : bool :=
  match h with
  | HSelect _ | HSend _ | HUnlock | HCrashed => true
  | HIdle | HPanicked => false
  end.

Definition waiterHolds (w : waiter) : bool :=
  match w with
  | WCloseStop _ | WCloseEvent _ | WUnlock _ => true
  | WRecv | WLock _ | WReturned _ => false
  end.

Definition stopDone (w : waiter) : bool :=
  match w with
  | WCloseEvent _ | WUnlock _ | WReturned _ => true
  | WRecv | WLock _ | WCloseStop _ => false
  end.

Definition eventDone (w : waiter) : bool :=
  match w with
  | WUnlock _ | WReturned _ => true
  | WRecv | WLock _ | WCloseStop _ | WCloseEvent _ => false
  end.

(** The mutex is held by whoever is inside its critical section, and by one
    goroutine at most; the channels are closed from the points of the
    deferred function on; a handler that sends has seen [stopC] open, and
    [stopC] is still open. *)
Definition protocol (s : world) : Prop :=
  mu s = (if handlerHolds (hdl s) then Some ByHandler
          else if waiterHolds (wt s) then Some ByWaiter else None)
  ∧ handlerHolds (hdl s) && waiterHolds (wt s) = false
  ∧ stopClosed s = stopDone (wt s)
  ∧ eventClosed s = eventDone (wt s)
  ∧ match hdl s with
    | HSend _ => stopClosed s = false
    | HPanicked => False
    | _ => True
    end.

(** The events that [Wait] has not received yet. *)
Definition undelivered (s : world) : list object :=
  match hdl s with
  | HSelect e | HSend e => e :: queue s
  | HCrashed => ObjOther :: queue s
  | _ => queue s
  end.

(** Only pods are sent on [eventC], so that the result of [Wait], once the
    handlers are at work, has a pod. *)
Definition podsOnly (s : world) : Prop :=
  match hdl s with
  | HSend ObjOther => False
  | _ => True
  end
  ∧ match wt s with
    | WRecv => True
    | WLock res | WCloseStop res | WCloseEvent res | WUnlock res | WReturned res =>
        is_Some res.1
    end.

(** [Wait] has received the events up to the first that decides, and its
    result is what that event decides. *)
Definition answers (events : list object) (s : world) : Prop :=
  match wt s with
  | WRecv => waitLoop events = waitLoop (undelivered s)
  | WLock res | WCloseStop res | WCloseEvent res | WUnlock res | WReturned res =>
      waitLoop events = Some res
  end.

End pods.

(** ** Tekton's TaskRun, as far as the reader looks at it *)

Module v1.

Record Condition := { cond_Status : corev1.ConditionStatus; cond_Message : string }.

(** An entry of [Status.RetriesStatus]: the status of an earlier attempt. *)
Record RetryStatus := { rs_PodName : string }.

Record TaskRun := {
  tr_Name : string;
  StartTime : option Z;
  CompletionTime : option Z;
  PodName : string;
  RetriesStatus : list RetryStatus;
  tr_Conditions : list Condition
}.

(** Modelled from the spec: [TaskRun.IsDone] is declared in Tekton's API
    package, which is not part of the sources; the data model gives
    [is_done := completed_at set]. *)
Definition IsDone (tr : TaskRun) : bool := bool_decide (is_Some (CompletionTime tr)).

(** Modelled from the spec: [TaskRun.HasStarted], from the same package;
    the data model gives [has_started := started_at set]. *)
Definition HasStarted (tr : TaskRun) : bool := bool_decide (is_Some (StartTime tr)).

(** The reference [Spec.TaskRef] of a run to its task. *)
Record TaskRef := { ref_Name : string }.

(** The TaskRun as [GetTaskRun] hands it over: the labels and the task
    reference that [formTaskName] reads, around the fields above. *)
Record TaskRunObject := {
  Labels : gmap string string;
  SpecTaskRef : option TaskRef;
  obj_run : TaskRun
}.

End v1.

(** ** package log: task_reader.go *)

Module log.
Import corev1 pods v1.

(** *** Running Go code that may panic *)

Inductive outcome (A : Type) :=
| Ret (a : A)
| Panic (msg : string).
Arguments Ret {A} a.
Arguments Panic {A} msg.

#[export] Instance outcome_ret : MRet outcome := @Ret.
#[export] Instance outcome_bind : MBind outcome :=
  λ A B f m, match m with Ret a => f a | Panic msg => Panic msg end.

Definition nilDereference : string :=
  "runtime error: invalid memory address or nil pointer dereference".

(** *** Steps *)

Record step := {
  name : string;
  container : string;
  state : ContainerState
}.

Definition hasStarted (s : step) : bool :=
  match Waiting (state s) with
  | None => true
  | Some _ => false
  end.

(** [strings.TrimPrefix]: [s] without the leading [prefix], or [s] itself when
    it does not start with it. *)
Fixpoint cutPrefix (prefix s : string) : option string :=
  match prefix, s with
  | EmptyString, _ => Some s
  | String a p', String b s' => if Ascii.eqb a b then cutPrefix p' s' else None
  | String _ _, EmptyString => None
  end.

Definition TrimPrefix (s prefix : string) : string := default s (cutPrefix prefix s).
Arguments TrimPrefix : simpl never.

(** The map [status] that [getSteps] and [getInitSteps] fill by ranging over
    the statuses: a later entry of the same name overwrites an earlier one. *)
Definition statusOf (css : list ContainerStatus) : gmap string ContainerState :=
  foldl (λ m cs, <[cs_Name cs := cs_State cs]> m) ∅ css.

Definition mkStep (status : gmap string ContainerState) (c : Container) : step :=
  {| name := TrimPrefix (c_Name c) "step-";
     container := c_Name c;
     state := default zeroContainerState (status !! c_Name c) |}.

(** [getInitSteps] and [getSteps] read through the pointer [pod]. *)
Definition getInitSteps (pod : option Pod) : outcome (list step) :=
  match pod with
  | None => Panic nilDereference
  | Some pod => Ret (map (mkStep (statusOf (InitContainerStatuses pod))) (InitContainers pod))
  end.

Definition getSteps (pod : option Pod) : outcome (list step) :=
  match pod with
  | None => Panic nilDereference
  | Some pod => Ret (map (mkStep (statusOf (ContainerStatuses pod))) (Containers pod))
  end.

(** The set [stepsToAdd] of [filterSteps], a [map[string]bool]. *)
Definition stepsToAddOf (stepsGiven : list string) : gmap string bool :=
  foldl (λ m s, <[s := true]> m) ∅ stepsGiven.

Definition filterSteps (pod : option Pod) (allSteps : bool) (stepsGiven : list string)
  : outcome (list step) :=
  stepsInPod ← getSteps pod;
  steps ← (if allSteps then getInitSteps pod else Ret []);
  if Nat.eqb (length stepsGiven) 0 then Ret (steps ++ stepsInPod)
  else
    let stepsToAdd := stepsToAddOf stepsGiven in
    Ret (steps ++ List.filter (λ sp, default false (stepsToAdd !! name sp)) stepsInPod).

(** *** The step list in the words of the specification

    "Start from regular containers (prefix-stripped name, state from
    [container_statuses]). If the caller asked for all steps, prepend init
    containers. If the caller provided a step-name allow-list, intersect."
    These definitions say it over lists, without the maps of the code. *)

(** The state that [statuses] report for the container [n]: that of the last
    entry of that name, if there is one. *)
Fixpoint reportedState (statuses : list ContainerStatus) (n : string) : option ContainerState :=
  match statuses with
  | [] => None
  | cs :: rest =>
      match reportedState rest n with
      | Some st => Some st
      | None => if String.eqb (cs_Name cs) n then Some (cs_State cs) else None
      end
  end.

Definition stepOf (statuses : list ContainerStatus) (c : Container) : step :=
  {| name := TrimPrefix (c_Name c) "step-";
     container := c_Name c;
     state := default zeroContainerState (reportedState statuses (c_Name c)) |}.

Definition regularSteps (pod : Pod) : list step :=
  map (stepOf (ContainerStatuses pod)) (Containers pod).

Definition initSteps (pod : Pod) : list step :=
  map (stepOf (InitContainerStatuses pod)) (InitContainers pod).

(** A step passes the allow-list when there is none or when its name is on
    it. *)
Definition allowed (stepsGiven : list string) (s : step) : bool :=
  bool_decide (stepsGiven = [] ∨ name s ∈ stepsGiven).

(** The step of a container for which no status is reported. *)
Definition unreported (c : Container) : step :=
  {| name := TrimPrefix (c_Name c) "step-";
     container := c_Name c;
     state := zeroContainerState |}.

(** *** The reader and what it produces *)

Record Reader := {
  run : string;
  ns : string;
  task : string;
  displayName : string;
  number : Z;
  follow : bool;
  timestamps : bool;
  allSteps : bool;
  steps : list string;
  retries : Z;
  hasStream : bool      (* [r.stream != nil] *)
}.

(** [Log{Task, TaskDisplayName, Step, Log}]; the last field is [Log'] here. *)
Record Log := {
  Task : string;
  TaskDisplayName : string;
  Step : string;
  Log' : string
}.

Definition mkLog (r : Reader) (st : step) (l : string) : Log :=
  {| Task := task r; TaskDisplayName := displayName r; Step := name st; Log' := l |}.

(** What the goroutine of [readPodLogs] that ranges over [podC] does, in
    program order: its sends on [logC] and [errC] and its calls of a
    container's [LogReader(..).Read()] and [Status()]. *)
Inductive action :=
| SendLog (l : Log)
| SendErr (e : string)
| CallRead (pod container : string)
| CallStatus (pod container : string).

Definition logsOf (t : list action) : list Log :=
  omap (λ a, match a with SendLog l => Some l | _ => None end) t.

Definition errorsOf (t : list action) : list string :=
  omap (λ a, match a with SendErr e => Some e | _ => None end) t.

(** Everything the reader calls that is not in this repository's sources.
    Pods and containers are addressed by name.
    - [podGet]: [Pod.Get], the API client's answer [(pod, err)].
    - [podEvents]: the events the informer has for the handlers of
      [Pod.Wait].
    - [handlerFirst]: whether, after the event that decides, the handler of
      the next event gets the mutex of [Pod.Wait] before the deferred
      function of [Pod.Wait] does.
    - [logRead pod container follow timestamps]: what
      [Container.LogReader(follow, timestamps).Read()] returns, either its
      error or the lines and the errors that its two channels carry.
      Modelled from the spec: the container log reader is not part of the
      sources; by its contract each parsed line goes to the line channel,
      transport errors to the error channel, and both channels are closed at
      the end of the stream.
    - [containerStatus]: what [Container.Status()] returns.
    - [TrimSpace]: Go's [strings.TrimSpace]. *)
Record Env := {
  podGet : string → option Pod * error;
  podEvents : string → list object;
  handlerFirst : string → bool;
  logRead : string → string → bool → bool → string + (list string * list string);
  containerStatus : string → string → error;
  TrimSpace : string → string
}.

(** *** The [select] loop of [readStepsLogs]

    A channel variable is [None] once the loop has set it to [nil]; before
    that it holds what is still to be received, after which the channel is
    closed. *)
Definition chan := option (list string).

Definition pending (c : chan) : nat :=
  match c with
  | None => 0
  | Some l => S (length l)
  end.

(** [case l, ok := <-containerLogC]. *)
Definition recvLog (r : Reader) (st : step) (lc ec : chan) : list action * (chan * chan) :=
  match lc with
  | Some (l :: ls) => ([SendLog (mkLog r st l)], (Some ls, ec))
  | Some [] => ([SendLog (mkLog r st "EOFLOG")], (None, ec))
  | None => ([], (lc, ec))
  end.

(** [case e, ok := <-containerLogErrC]. *)
Definition recvErr (st : step) (lc ec : chan) : list action * (chan * chan) :=
  match ec with
  | Some (e :: es) => ([SendErr ("failed to get logs for " +:+ name st +:+ ": " +:+ e)], (lc, Some es))
  | Some [] => ([], (lc, None))
  | None => ([], (lc, ec))
  end.

(** One [select]. A receive from a [nil] channel never fires; when both
    channels are live, which case fires is up to the scheduler: [pick]. *)
Definition selectOnce (r : Reader) (st : step) (pick : bool) (lc ec : chan)
  : list action * (chan * chan) :=
  match lc, ec with
  | Some _, Some _ => if pick then recvLog r st lc ec else recvErr st lc ec
  | Some _, None => recvLog r st lc ec
  | None, _ => recvErr st lc ec
  end.

(** [for containerLogC != nil || containerLogErrC != nil { select ... }],
    at most [n] iterations; [sched] holds the scheduler's choices, one per
    iteration. *)
Fixpoint selectLoop (r : Reader) (st : step) (n : nat) (sched : list bool) (lc ec : chan)
  : list action * list bool * (chan * chan) :=
  match n with
  | 0 => ([], sched, (lc, ec))
  | S n' =>
      match lc, ec with
      | None, None => ([], sched, (lc, ec))
      | _, _ =>
          let '(out, (lc', ec')) := selectOnce r st (List.hd true sched) lc ec in
          let '(rest, sched', final) := selectLoop r st n' (List.tl sched) lc' ec' in
          (out ++ rest, sched', final)
      end
  end.

(** The body of [for _, step := range steps], for one step: what it does,
    what is left of the schedule, and whether the loop goes on ([false]: the
    [return] after a failed [container.Status()]). Each iteration of the
    [select] loop uses up one pending receive, so [pending lc + pending ec]
    iterations run it to its end. *)
Definition readStep (env : Env) (r : Reader) (podName : string) (follow timestamps : bool)
    (sched : list bool) (st : step) : list action * list bool * bool :=
  if negb follow && negb (hasStarted st) then ([], sched, true)
  else
    match logRead env podName (container st) follow timestamps with
    | inl err =>
        ([CallRead podName (container st);
          SendErr ("error in getting logs for step " +:+ name st +:+ ": " +:+ err)],
         sched, true)
    | inr (ls, es) =>
        let '(t, sched', _) :=
          selectLoop r st (pending (Some ls) + pending (Some es)) sched (Some ls) (Some es) in
        match containerStatus env podName (container st) with
        | Some err =>
            (CallRead podName (container st) :: t
               ++ [CallStatus podName (container st); SendErr err], sched', false)
        | None =>
            (CallRead podName (container st) :: t ++ [CallStatus podName (container st)],
             sched', true)
        end
    end.

Fixpoint readStepsLogs (env : Env) (r : Reader) (podName : string) (follow timestamps : bool)
    (sched : list bool) (sts : list step) : list action * list bool :=
  match sts with
  | [] => ([], sched)
  | st :: rest =>
      let '(t, sched', goOn) := readStep env r podName follow timestamps sched st in
      if goOn then
        let '(t', sched'') := readStepsLogs env r podName follow timestamps sched' rest in
        (t ++ t', sched'')
      else (t, sched')
  end.

(** How the goroutine ends: it leaves the [range] over [podC] and closes
    [logC]; it panics; it stays blocked in a [Pod.Wait] that does not
    return; or it is in a [Pod.Wait] when a handler of that wait brings the
    process down. *)
Inductive ending :=
| Finished
| Panicked (msg : string)
| Blocked
| Killed.

(** How [readPodLogs] gets the pod: [p.Wait()] with [follow], else
    [p.Get()]. *)
Definition getPod (env : Env) (follow : bool) (podName : string) : waited :=
  if follow
  then WaitOutcome (podGet env podName) (handlerFirst env podName) (podEvents env podName)
  else Answered (podGet env podName).

(** The goroutine of [readPodLogs] that ranges over [podC], for the pod names
    [podNames] that the channel delivers before it is closed. The channels
    [logC] and [errC] are taken to have a reader, so that no send blocks. *)
Fixpoint readPodLogs (env : Env) (r : Reader) (follow timestamps : bool)
    (sched : list bool) (podNames : list string) : list action * ending :=
  match podNames with
  | [] => ([], Finished)
  | podName :: rest =>
      match getPod env follow podName with
      | Hangs => ([], Blocked)
      | Crashes => ([], Killed)
      | Answered (pod, err) =>
          let failed :=
            match err with
            | Some e =>
                [SendErr ("task " +:+ task r +:+ " failed: " +:+ TrimSpace env e
                          +:+ ". Run tkn tr desc " +:+ run r +:+ " for more details")]
            | None => []
            end in
          match filterSteps pod (allSteps r) (steps r) with
          | Panic msg => (failed, Panicked msg)
          | Ret sts =>
              let '(t, sched') := readStepsLogs env r podName follow timestamps sched sts in
              let '(t', e) := readPodLogs env r follow timestamps sched' rest in
              (failed ++ t ++ t', e)
          end
      end
  end.

(** *** What a step's channels still hold, and the end markers *)

(** The records that the line channel [lc] will still give rise to: one per
    line, then the marker sent when the channel is found closed. *)
Definition pendingLogs (r : Reader) (st : step) (lc : chan) : list Log :=
  match lc with
  | None => []
  | Some ls => map (mkLog r st) ls ++ [mkLog r st "EOFLOG"]
  end.

Definition pendingErrs (st : step) (ec : chan) : list string :=
  match ec with
  | None => []
  | Some es => map (λ e, "failed to get logs for " +:+ name st +:+ ": " +:+ e) es
  end.

(** A record counts as an end marker when its line is the text EOFLOG; that
    is how the consumer of [logC] tells. *)
Definition isMarker (l : Log) : bool := String.eqb (Log' l) "EOFLOG".

Definition markers (logs : list Log) : nat := length (List.filter isMarker logs).

(** A send on [logC] or [errC], as opposed to a call of the container. *)
Definition isSend (a : action) : Prop :=
  match a with
  | SendLog _ | SendErr _ => True
  | _ => False
  end.

(** The error that [readPodLogs] sends when getting the pod failed. *)
Definition podFailure (env : Env) (r : Reader) (err : error) : list action :=
  match err with
  | Some e =>
      [SendErr ("task " +:+ task r +:+ " failed: " +:+ TrimSpace env e
                +:+ ". Run tkn tr desc " +:+ run r +:+ " for more details")]
  | None => []
  end.

(** The pod and the error that [readPodLogs] gets, when it gets an
    answer. *)
Definition fetched (env : Env) (follow : bool) (podName : string) : option (option Pod * error) :=
  match getPod env follow podName with
  | Answered res => Some res
  | Hangs | Crashes => None
  end.

(** How the reader ends when it gets no answer. *)
Definition stalled (env : Env) (follow : bool) (podName : string) : ending :=
  match getPod env follow podName with
  | Crashes => Killed
  | _ => Blocked
  end.

(** The step is not passed over by [if !follow && !step.hasStarted()]. *)
Definition attempted (follow : bool) (st : step) : Prop :=
  negb follow && negb (hasStarted st) = false.

(** *** Failure and retries of a TaskRun *)

Definition isFailure (tr : TaskRun) : bool :=
  match tr_Conditions tr with
  | [] => false
  | c :: _ => String.eqb (cond_Status c) ConditionFalse
  end.

Definition hasTaskRunFailed (tr : TaskRun) (taskName : string) : error :=
  if isFailure tr then
    Some ("task " +:+ taskName +:+ " has failed: "
          +:+ default "" (cond_Message <$> head (tr_Conditions tr)))
  else None.

Definition areRetriesScheduled (tr : TaskRun) (retries : Z) : bool :=
  if IsDone tr then false
  else
    let retriesDone := Z.of_nat (length (RetriesStatus tr)) in
    (retriesDone <? retries)%Z.

Definition nonEmpty (s : string) : bool := negb (String.eqb s "").

(** *** Available mode *)

(** What the goroutine of [readAvailableTaskLogs] sends on [podC] before it
    closes it. *)
Definition availablePodNames (tr : TaskRun) : list string :=
  if nonEmpty (PodName tr) then
    (if negb (Nat.eqb (length (RetriesStatus tr)) 0)
     then map rs_PodName (RetriesStatus tr) else [])
    ++ [PodName tr]
  else [].

(** [readAvailableTaskLogs]: its start error, or what the reader of the pods
    does. The line written to [r.stream.Err] for a failed run is not
    recorded. *)
Definition readAvailableTaskLogs (env : Env) (r : Reader) (sched : list bool) (tr : TaskRun)
  : string + (list action * ending) :=
  if negb (HasStarted tr) then inl ("task " +:+ task r +:+ " has not started yet")
  else
    match (if hasStream r then None else hasTaskRunFailed tr (task r)) with
    | Some err => inl err
    | None =>
        if negb (nonEmpty (PodName tr))
        then inl ("pod for taskrun " +:+ tr_Name tr +:+ " not available yet")
        else inr (readPodLogs env r false (timestamps r) sched (availablePodNames tr))
    end.

(** *** Live mode: [getTaskRunPodNames] *)

(** The state of the discovery goroutine: the set [podMap] of names already
    sent, and what it has sent on its channels [podC] and [errC] so far. *)
Record discovery := {
  podMap : gmap string bool;
  podC : list string;
  errC : list string
}.

Definition noPods : discovery := {| podMap := ∅; podC := []; errC := [] |}.

Definition addPod (name : string) (d : discovery) : discovery :=
  match podMap d !! name with
  | Some _ => d
  | None => {| podMap := <[name := true]> (podMap d); podC := podC d ++ [name]; errC := errC d |}
  end.

Definition sendErr (e : string) (d : discovery) : discovery :=
  {| podMap := podMap d; podC := podC d; errC := errC d ++ [e] |}.

(** Before the loop: the retries in order, then the current pod. *)
Definition announce (run : TaskRun) (d : discovery) : discovery :=
  let d1 :=
    if negb (Nat.eqb (length (RetriesStatus run)) 0)
    then foldl (λ d rs, addPod (rs_PodName rs) d) d (RetriesStatus run)
    else d in
  if nonEmpty (PodName run) then addPod (PodName run) d1 else d1.

(** What the [select] of the loop receives: an event of the watch, whose
    object [cast2taskrun] turns into a TaskRun or into an error; the timer
    of [time.After(r.activityTimeout)], which fires once; or, when the
    result channel of the watch has been closed, the zero event, of which
    the object is [nil]. *)
Inductive watchInput :=
| WatchEvent (obj : string + TaskRun)
| TimeoutFired
| WatchClosed.

(** A branch of the [select] either returns, after sending [e] on [errC] when
    there is one, or goes round the loop again. *)
Inductive verdict :=
| Stop (e : error)
| Continue.

(** [case <-timeout:] *)
Definition onTimeout (r : Reader) (run : TaskRun) : verdict :=
  match hasTaskRunFailed run (task r) with
  | Some err => Stop (Some err)
  | None =>
      if HasStarted run && nonEmpty (PodName run) then
        if areRetriesScheduled run (retries r) then Continue else Stop None
      else
        Stop (Some ("task " +:+ task r
                    +:+ " has not started yet or pod for task not yet available"))
  end.

(** How the goroutine stands when the inputs are used up: it has returned
    (and its deferred function has closed [podC] and [errC] and stopped the
    watch); it is still in the [select], holding [run]; or it has panicked
    in [cast2taskrun], which dereferences the type of the [nil] object of a
    closed watch, and brings the process down. *)
Inductive loopEnd :=
| Returned
| Watching (run : TaskRun)
| Collapsed.

Fixpoint watchLoop (r : Reader) (run : TaskRun) (d : discovery) (inputs : list watchInput)
  : discovery * loopEnd :=
  match inputs with
  | [] => (d, Watching run)
  | WatchEvent (inl err) :: _ => (sendErr err d, Returned)
  | WatchEvent (inr run') :: rest =>
      if nonEmpty (PodName run') then
        let d' := addPod (PodName run') d in
        if negb (areRetriesScheduled run' (retries r)) then (d', Returned)
        else watchLoop r run' d' rest
      else watchLoop r run' d rest
  | TimeoutFired :: rest =>
      match onTimeout r run with
      | Stop (Some err) => (sendErr err d, Returned)
      | Stop None => (d, Returned)
      | Continue => watchLoop r run d rest
      end
  | WatchClosed :: _ => (d, Collapsed)
  end.

(** [getTaskRunPodNames]: the error of [actions.Watch], or the goroutine it
    starts on the inputs that the watch and the timer deliver. *)
Definition getTaskRunPodNames (r : Reader) (run : TaskRun) (watch : string + list watchInput)
  : string + (discovery * loopEnd) :=
  match watch with
  | inl err => inl err
  | inr inputs => inr (watchLoop r run (announce run noPods) inputs)
  end.

(** [len(retries_status) >= configured_retries] and the current pod name is
    set. *)
Definition retriesExhausted (r : Reader) (run : TaskRun) : Prop :=
  (retries r ≤ Z.of_nat (length (RetriesStatus run)))%Z ∧ PodName run ≠ "".

(** *** What discovery keeps, sees and is expected to send *)

(** [podMap] holds the names sent on [podC], each of them sent once. *)
Definition consistent (d : discovery) : Prop :=
  NoDup (podC d) ∧ ∀ n, is_Some (podMap d !! n) ↔ n ∈ podC d.

(** The attempts of a run: its retries, oldest first, then the current
    pod. *)
Definition attempts (run : TaskRun) : list string :=
  map rs_PodName (RetriesStatus run) ++ [PodName run].

(** The amended wording of live mode, "each name only at its first
    occurrence": going through [names] from left to right, a name is kept
    when it is neither in [seen] nor among the names gone before it. *)
Fixpoint firstOccurrences (seen names : list string) : list string :=
  match names with
  | [] => []
  | n :: rest =>
      if bool_decide (n ∈ seen) then firstOccurrences seen rest
      else n :: firstOccurrences (n :: seen) rest
  end.

(** The TaskRun that a branch of the [select] looks at: the one the event
    carries, or, for the timer, the one last received. *)
Definition observed (run : TaskRun) (i : watchInput) : option TaskRun :=
  match i with
  | WatchEvent (inr run') => Some run'
  | WatchEvent (inl _) => None
  | TimeoutFired => Some run
  | WatchClosed => None
  end.

(** *** The entry point: [readTaskLog], [formTaskName], [readLiveTaskLogs] *)

Definition MsgTRNotFoundErr : string := "Unable to get TaskRun".

(** [fmt.Sprintf("%d", n)]. *)
Definition formatInt (n : Z) : string := NilZero.string_of_int (Z.to_int n).

(** [r.task = name]. *)
Definition withTask (name : string) (r : Reader) : Reader :=
  {| run := run r; ns := ns r; task := name; displayName := displayName r;
     number := number r; follow := follow r; timestamps := timestamps r;
     allSteps := allSteps r; steps := steps r; retries := retries r;
     hasStream := hasStream r |}.

Definition formTaskName (r : Reader) (tr : TaskRunObject) : Reader :=
  if nonEmpty (task r) then r
  else
    match Labels tr !! "tekton.dev/pipelineTask" with
    | Some name => withTask name r
    | None =>
        match SpecTaskRef tr with
        | Some ref => withTask (ref_Name ref) r
        | None => withTask ("Task " +:+ formatInt (number r)) r
        end
    end.

(** What a reading gives: the errors that the first goroutine of
    [readPodLogs] forwards from [podErrC] to [errC], and what the goroutine
    that reads the pods does. *)
Definition reading : Type := list string * (list action * ending).

(** [readLiveTaskLogs]. The reader of the pods gets the names that discovery
    sends; when discovery stays in its loop and so never closes [podC], the
    reader stays in its [range] once it has read them; when discovery
    panics, the reader goes down with the process, at the latest once it
    has read them. *)
Definition readLiveTaskLogs (env : Env) (r : Reader) (sched : list bool) (tr : TaskRun)
    (watch : string + list watchInput) : string + reading :=
  match getTaskRunPodNames r tr watch with
  | inl err => inl err
  | inr (d, e) =>
      let '(t, fin) := readPodLogs env r (follow r) (timestamps r) sched (podC d) in
      inr (errC d, (t, match fin, e with
                       | Finished, Watching _ => Blocked
                       | Finished, Collapsed => Killed
                       | _, _ => fin
                       end))
  end.

(** [readTaskLog]; [got] is what [GetTaskRun] returns. *)
Definition readTaskLog (env : Env) (r : Reader) (sched : list bool)
    (got : string + TaskRunObject) (watch : string + list watchInput) : string + reading :=
  match got with
  | inl err => inl (MsgTRNotFoundErr +:+ ": " +:+ err)
  | inr tr =>
      let r' := formTaskName r tr in
      if negb (IsDone (obj_run tr)) && follow r' then
        readLiveTaskLogs env r' sched (obj_run tr) watch
      else
        match readAvailableTaskLogs env r' sched (obj_run tr) with
        | inl err => inl err
        | inr res => inr ([], res)
        end
  end.

(** [r.follow = f]. *)
Definition withFollow (f : bool) (r : Reader) : Reader :=
  {| run := run r; ns := ns r; task := task r; displayName := displayName r;
     number := number r; follow := f; timestamps := timestamps r;
     allSteps := allSteps r; steps := steps r; retries := retries r;
     hasStream := hasStream r |}.

(** *** What the channels of a pod carry, step by step

    The records on [logC] and the errors on [errC] that the steps of a pod
    give rise to, said without the scheduler: a step that is passed over
    gives nothing; a step whose log reader does not start gives one error; a
    step that is read gives its lines and the marker, and its transport
    errors; a failed status gives its error and ends the pod. *)
Fixpoint expectedLogs (env : Env) (r : Reader) (podName : string) (follow timestamps : bool)
    (sts : list step) : list Log :=
  match sts with
  | [] => []
  | st :: rest =>
      if negb follow && negb (hasStarted st)
      then expectedLogs env r podName follow timestamps rest
      else
        match logRead env podName (container st) follow timestamps with
        | inl _ => expectedLogs env r podName follow timestamps rest
        | inr (ls, _) =>
            (map (mkLog r st) ls ++ [mkLog r st "EOFLOG"])
            ++ match containerStatus env podName (container st) with
               | Some _ => []
               | None => expectedLogs env r podName follow timestamps rest
               end
        end
  end.

Fixpoint expectedErrors (env : Env) (podName : string) (follow timestamps : bool)
    (sts : list step) : list string :=
  match sts with
  | [] => []
  | st :: rest =>
      if negb follow && negb (hasStarted st)
      then expectedErrors env podName follow timestamps rest
      else
        match logRead env podName (container st) follow timestamps with
        | inl err =>
            ("error in getting logs for step " +:+ name st +:+ ": " +:+ err)
            :: expectedErrors env podName follow timestamps rest
        | inr (_, es) =>
            map (λ e, "failed to get logs for " +:+ name st +:+ ": " +:+ e) es
            ++ match containerStatus env podName (container st) with
               | Some err => [err]
               | None => expectedErrors env podName follow timestamps rest
               end
        end
  end.

End log.

(** ** Concrete clusters, pods and runs, used to run the definitions *)

Module sample.
Import corev1 pods v1 log.

(** A running pod that is being deleted. *)
Definition terminating : Pod :=
  {| Name := "build-pod"; Namespace := "ci"; DeletionTimestamp := Some 1700000000%Z;
     Phase := PodRunning; Conditions := [];
     InitContainerStatuses := []; ContainerStatuses := [];
     InitContainers := []; Containers := [ {| c_Name := "step-compile"; c_Image := "golang" |} ] |}.

(** A pending pod whose image cannot be pulled. *)
Definition imagePull : Pod :=
  {| Name := "build-pod"; Namespace := "ci"; DeletionTimestamp := None;
     Phase := PodPending;
     Conditions := [ {| pc_Type := PodScheduled; pc_Status := ConditionTrue; pc_Message := "" |};
                     {| pc_Type := PodInitialized; pc_Status := ConditionUnknown;
                        pc_Message := "ImagePullBackOff" |};
                     {| pc_Type := ContainersReady; pc_Status := ConditionUnknown;
                        pc_Message := "containers not ready" |} ];
     InitContainerStatuses := []; ContainerStatuses := [];
     InitContainers := []; Containers := [ {| c_Name := "step-compile"; c_Image := "golang" |} ] |}.

(** A pod with an init container and two steps, all terminated. *)
Definition done : ContainerState :=
  {| Waiting := None; Running := None;
     Terminated := Some {| t_ExitCode := 0; t_Reason := "Completed" |} |}.

Definition buildPod : Pod :=
  {| Name := "build-pod"; Namespace := "ci"; DeletionTimestamp := None;
     Phase := PodSucceeded; Conditions := [];
     InitContainerStatuses := [ {| cs_Name := "step-prepare"; cs_State := done |} ];
     ContainerStatuses := [ {| cs_Name := "step-compile"; cs_State := done |};
                            {| cs_Name := "step-test"; cs_State := done |} ];
     InitContainers := [ {| c_Name := "step-prepare"; c_Image := "busybox" |} ];
     Containers := [ {| c_Name := "step-compile"; c_Image := "golang" |};
                     {| c_Name := "step-test"; c_Image := "golang" |} ] |}.

(** [strings.TrimSpace] on text in which all white space is ASCII. *)
Definition isSpace (a : Ascii.ascii) : bool :=
  match Ascii.N_of_ascii a with
  | 9%N | 10%N | 11%N | 12%N | 13%N | 32%N => true
  | _ => false
  end.

Fixpoint trimLeft (s : string) : string :=
  match s with
  | String a s' => if isSpace a then trimLeft s' else s
  | EmptyString => EmptyString
  end.

Definition trimAscii (s : string) : string :=
  String.rev (trimLeft (String.rev (trimLeft s))).

(** A cluster with the pod [buildPod], whose containers have written the
    lines given by [output]; every other pod is unknown to it. *)
Definition clusterWith (output : string → list string) : Env :=
  {| podGet := λ n, if String.eqb n "build-pod" then (Some buildPod, None)
                    else (None, Some ("pods " +:+ n +:+ " not found"));
     podEvents := λ n, if String.eqb n "build-pod" then [ObjPod buildPod] else [];
     handlerFirst := λ _, false;
     logRead := λ _ c _ _, inr (output c, []);
     containerStatus := λ _ _, None;
     TrimSpace := trimAscii |}.

Definition cluster : Env :=
  clusterWith (λ c, if String.eqb c "step-compile" then ["a"; "b"]
                    else if String.eqb c "step-test" then ["c"]
                    else if String.eqb c "step-prepare" then ["i1"] else []).

(** The same, with a step that prints the text of the end marker. *)
Definition echoCluster : Env :=
  clusterWith (λ c, if String.eqb c "step-compile" then ["a"; "EOFLOG"] else []).

Definition reader : Reader :=
  {| run := "build"; ns := "ci"; task := "build"; displayName := "build"; number := 1;
     follow := false; timestamps := false; allSteps := false; steps := [];
     retries := 0; hasStream := false |}.

Definition compile : step :=
  {| name := "compile"; container := "step-compile"; state := done |}.

Definition buildRun : TaskRun :=
  {| tr_Name := "build"; StartTime := Some 1700000000%Z; CompletionTime := Some 1700000100%Z;
     PodName := "build-pod"; RetriesStatus := [];
     tr_Conditions := [ {| cond_Status := ConditionTrue; cond_Message := "All Steps have completed executing" |} ] |}.

(** A cluster in which the step compile ends with a non-zero exit code. *)
Definition failingCluster : Env :=
  {| podGet := podGet cluster; podEvents := podEvents cluster;
     handlerFirst := handlerFirst cluster; logRead := logRead cluster;
     containerStatus := λ _ c, if String.eqb c "step-compile"
                               then Some "container step-compile has failed: Error"
                               else None;
     TrimSpace := trimAscii |}.

Definition test : step :=
  {| name := "test"; container := "step-test"; state := done |}.

(** A cluster whose pod stays pending because its image cannot be pulled;
    no log can be read from its container. *)
Definition stuckCluster : Env :=
  {| podGet := λ _, (Some imagePull, None);
     podEvents := λ _, [ObjPod imagePull];
     handlerFirst := λ _, false;
     logRead := λ _ c _ _, inl ("container " +:+ c +:+ " is waiting to start: ImagePullBackOff");
     containerStatus := λ _ _, None;
     TrimSpace := trimAscii |}.

(** A run whose retry is recorded under the name of the current pod. *)
Definition sameName : TaskRun :=
  {| tr_Name := "build"; StartTime := Some 1700000000%Z; CompletionTime := None;
     PodName := "p0"; RetriesStatus := [ {| rs_PodName := "p0" |} ];
     tr_Conditions := [] |}.

(** A run in its second attempt. *)
Definition retried : TaskRun :=
  {| tr_Name := "build"; StartTime := Some 1700000000%Z; CompletionTime := None;
     PodName := "p1"; RetriesStatus := [ {| rs_PodName := "p0" |} ];
     tr_Conditions := [] |}.

(** A run in its third attempt, and a run whose third attempt is recorded
    under the name of the first. *)
Definition thirdAttempt : TaskRun :=
  {| tr_Name := "build"; StartTime := Some 1700000000%Z; CompletionTime := None;
     PodName := "p2"; RetriesStatus := [ {| rs_PodName := "p0" |}; {| rs_PodName := "p1" |} ];
     tr_Conditions := [] |}.

Definition revisited : TaskRun :=
  {| tr_Name := "build"; StartTime := Some 1700000000%Z; CompletionTime := None;
     PodName := "p0"; RetriesStatus := [ {| rs_PodName := "p0" |}; {| rs_PodName := "p1" |} ];
     tr_Conditions := [] |}.

(** A run in its first attempt, and a reader that expects one retry. *)
Definition firstAttempt : TaskRun :=
  {| tr_Name := "build"; StartTime := Some 1700000000%Z; CompletionTime := None;
     PodName := "p0"; RetriesStatus := []; tr_Conditions := [] |}.

Definition patient : Reader :=
  {| run := "build"; ns := "ci"; task := "build"; displayName := "build"; number := 1;
     follow := true; timestamps := false; allSteps := false; steps := [];
     retries := 1; hasStream := false |}.

(** A run that failed before any pod was created. *)
Definition failedRun : TaskRun :=
  {| tr_Name := "build"; StartTime := Some 1700000000%Z; CompletionTime := Some 1700000001%Z;
     PodName := ""; RetriesStatus := [];
     tr_Conditions := [ {| cond_Status := ConditionFalse; cond_Message := "invalid input params" |} ] |}.

(** The informer reports the pod, and then reports it again. *)
Definition reportedTwice : list object := [ObjPod buildPod; ObjPod buildPod].

(** [Wait] has its answer and waits for the mutex; the handler holds the
    mutex and waits for [Wait] to receive the second event. *)
Definition embrace : world :=
  {| wt := WLock (Some buildPod, None); hdl := HSend (ObjPod buildPod); queue := [];
     mu := Some ByHandler; stopClosed := false; eventClosed := false |}.

Definition onlyTest : Reader :=
  {| run := "build"; ns := "ci"; task := "build"; displayName := "build"; number := 1;
     follow := false; timestamps := false; allSteps := false; steps := ["test"];
     retries := 0; hasStream := false |}.

Definition everyStep : Reader :=
  {| run := "build"; ns := "ci"; task := "build"; displayName := "build"; number := 1;
     follow := false; timestamps := false; allSteps := true; steps := [];
     retries := 0; hasStream := false |}.

(** A cluster that knows the pod but whose informer reports nothing. *)
Definition silentCluster : Env :=
  {| podGet := λ _, (Some imagePull, None);
     podEvents := λ _, [];
     handlerFirst := λ _, false;
     logRead := λ _ _ _ _, inr ([], []);
     containerStatus := λ _ _, None;
     TrimSpace := trimAscii |}.

(** The run [buildRun] as a whole object, once as the task "compile-all" of
    a pipeline and once on its own, and a reader that has not been given a
    task name. *)
Definition pipelineRunTask : TaskRunObject :=
  {| Labels := {[ "tekton.dev/pipelineTask" := "compile-all" ]};
     SpecTaskRef := Some {| ref_Name := "golang-build" |};
     obj_run := buildRun |}.

Definition anonymous : Reader :=
  {| run := "build"; ns := "ci"; task := ""; displayName := ""; number := 3;
     follow := true; timestamps := false; allSteps := false; steps := [];
     retries := 0; hasStream := false |}.

(** The cluster in which the informer reports the pod twice, the handler
    of the second event being first at the mutex. *)
Definition racingCluster : Env :=
  {| podGet := podGet cluster;
     podEvents := λ _, [ObjPod buildPod; ObjPod buildPod];
     handlerFirst := λ _, true;
     logRead := logRead cluster;
     containerStatus := containerStatus cluster;
     TrimSpace := trimAscii |}.

End sample.

(** * Properties *)

(** ** The policy of the pod watcher *)

Module PodWatcher.
Import corev1 pods sample.

Lemma readablePhase_spec (pod : Pod) : readablePhase (Phase pod) = true ↔ readable pod.
Proof.
  unfold readablePhase, readable.
  rewrite !orb_true_iff, !String.eqb_eq. tauto.
Qed.

Lemma unknown_test (c : PodCondition) :
  (String.eqb (pc_Type c) PodInitialized || String.eqb (pc_Type c) ContainersReady)
  && String.eqb (pc_Status c) ConditionUnknown = true ↔ unknown c.
Proof.
  unfold unknown.
  rewrite andb_true_iff, orb_true_iff, !String.eqb_eq. tauto.
Qed.

Lemma unknownCondition_none (cs : list PodCondition) :
  Forall (λ c, ¬ unknown c) cs → unknownCondition cs = None.
Proof.
  induction 1 as [|c cs Hc _ IH]; simpl; [done|].
  destruct (_ && _) eqn:E; [|exact IH].
  apply unknown_test in E. contradiction.
Qed.

Lemma unknownCondition_first (pre post : list PodCondition) (c : PodCondition) :
  Forall (λ c, ¬ unknown c) pre → unknown c →
  unknownCondition (pre ++ c :: post) = Some (pc_Message c).
Proof.
  intros Hpre Hc. induction Hpre as [|c' pre Hc' _ IH]; simpl.
  - apply unknown_test in Hc. by rewrite Hc.
  - destruct (_ && _) eqn:E; [|exact IH].
    apply unknown_test in E. contradiction.
Qed.

(** C3, as stated, fails: a pod whose phase is Running and whose deletion
    timestamp is set is answered with an error, not with "no error"; and the
    text of that error ends in a space. *)
Lemma checkPodStatus_running_but_deleted :
  Phase terminating = PodRunning
  ∧ checkPodStatus (ObjPod terminating)
    = (Some terminating, Some "failed to run the pod build-pod ")
  ∧ snd (checkPodStatus (ObjPod terminating)) ≠ None
  ∧ snd (checkPodStatus (ObjPod terminating)) ≠ Some "failed to run the pod build-pod".
Proof. split; [|split; [|split]]; done. Qed.

(** C3, amended: the deletion timestamp is looked at first. A pod with a
    deletion timestamp is returned with the error "failed to run the pod
    <name> " (with a space at the end), whatever its phase; otherwise a pod
    in phase Succeeded, Running or Failed is returned with no error;
    otherwise the first condition of type PodInitialized or ContainersReady
    with status Unknown makes it return the pod with that condition's
    message as error; otherwise it returns neither pod nor error, and the
    wait goes on. *)
Theorem checkPodStatus_policy (pod : Pod) :
  (is_Some (DeletionTimestamp pod) →
     checkPodStatus (ObjPod pod)
     = (Some pod, Some ("failed to run the pod " +:+ Name pod +:+ " ")))
  ∧ (DeletionTimestamp pod = None → readable pod →
     checkPodStatus (ObjPod pod) = (Some pod, None))
  ∧ (DeletionTimestamp pod = None → ¬ readable pod →
     ∀ pre c post, Conditions pod = pre ++ c :: post →
       Forall (λ c, ¬ unknown c) pre → unknown c →
       checkPodStatus (ObjPod pod) = (Some pod, Some (pc_Message c)))
  ∧ (DeletionTimestamp pod = None → ¬ readable pod →
     Forall (λ c, ¬ unknown c) (Conditions pod) →
     checkPodStatus (ObjPod pod) = (None, None)
     ∧ ∀ rest, waitLoop (ObjPod pod :: rest) = waitLoop rest).
Proof.
  split; [|split; [|split]].
  - intros [t Ht]. simpl. by rewrite Ht.
  - intros Hd Hr. apply readablePhase_spec in Hr. simpl. by rewrite Hd, Hr.
  - intros Hd Hr pre c post Hcs Hpre Hc. simpl. rewrite Hd, Hcs.
    destruct (readablePhase (Phase pod)) eqn:E; [by apply readablePhase_spec in E|].
    by rewrite unknownCondition_first.
  - intros Hd Hr Hall.
    assert (checkPodStatus (ObjPod pod) = (None, None)) as Hnone.
    { simpl. rewrite Hd.
      destruct (readablePhase (Phase pod)) eqn:E; [by apply readablePhase_spec in E|].
      by rewrite unknownCondition_none. }
    split; [exact Hnone|]. intros rest.
    change (waitLoop (ObjPod pod :: rest))
      with (match checkPodStatus (ObjPod pod) with
            | (None, None) => waitLoop rest
            | res => Some res
            end).
    by rewrite Hnone.
Qed.

Lemma checkPodStatus_policy_witness :
  checkPodStatus (ObjPod imagePull) = (Some imagePull, Some "ImagePullBackOff").
Proof.
  apply (proj1 (proj2 (proj2 (checkPodStatus_policy imagePull))))
    with (pre := [ {| pc_Type := PodScheduled; pc_Status := ConditionTrue; pc_Message := "" |} ])
         (c := {| pc_Type := PodInitialized; pc_Status := ConditionUnknown;
                  pc_Message := "ImagePullBackOff" |})
         (post := [ {| pc_Type := ContainersReady; pc_Status := ConditionUnknown;
                       pc_Message := "containers not ready" |} ]).
  - reflexivity.
  - unfold readable; simpl. intros [H|[H|H]]; discriminate H.
  - reflexivity.
  - constructor; [|constructor]. unfold unknown; simpl. intros [[H|H] _]; discriminate H.
  - unfold unknown; simpl. split; [left|]; reflexivity.
Defined.

End PodWatcher.

(** ** The steps of a pod *)

Module Steps.
Import corev1 pods v1 log sample.

Example TrimPrefix_step : TrimPrefix "step-compile" "step-" = "compile".
Proof. reflexivity. Qed.

Example TrimPrefix_other : TrimPrefix "sidecar-proxy" "step-" = "sidecar-proxy".
Proof. reflexivity. Qed.

(** Ranging over the statuses and storing each under its name leaves, under
    a name, the last state stored for it. *)
Lemma foldl_status_lookup (statuses : list ContainerStatus) (m : gmap string ContainerState)
    (n : string) :
  foldl (λ m cs, <[cs_Name cs := cs_State cs]> m) m statuses !! n
  = match reportedState statuses n with
    | Some st => Some st
    | None => m !! n
    end.
Proof.
  revert m. induction statuses as [|cs rest IH]; intros m; simpl; [done|].
  rewrite IH. destruct (reportedState rest n); [done|].
  destruct (String.eqb_spec (cs_Name cs) n) as [->|Hne].
  - by rewrite lookup_insert_eq.
  - by rewrite lookup_insert_ne.
Qed.

Lemma statusOf_lookup (statuses : list ContainerStatus) (n : string) :
  statusOf statuses !! n = reportedState statuses n.
Proof.
  unfold statusOf. rewrite foldl_status_lookup.
  destruct (reportedState statuses n); [done|]. apply lookup_empty.
Qed.

Lemma mkStep_stepOf (statuses : list ContainerStatus) (c : Container) :
  mkStep (statusOf statuses) c = stepOf statuses c.
Proof. unfold mkStep, stepOf. by rewrite statusOf_lookup. Qed.

Lemma reportedState_absent (statuses : list ContainerStatus) (n : string) :
  n ∉ cs_Name <$> statuses → reportedState statuses n = None.
Proof.
  induction statuses as [|cs rest IH]; simpl; [done|].
  intros Hn. apply not_elem_of_cons in Hn as [Hne Hrest].
  rewrite (IH Hrest). destruct (String.eqb_spec (cs_Name cs) n); congruence.
Qed.

(** The set [stepsToAdd] holds exactly the names given. *)
Lemma foldl_allow_lookup (given : list string) (m : gmap string bool) (n : string) :
  default false (foldl (λ m s, <[s := true]> m) m given !! n)
  = bool_decide (n ∈ given) || default false (m !! n).
Proof.
  revert m. induction given as [|g rest IH]; intros m; simpl; [done|].
  rewrite IH. destruct (decide (g = n)) as [->|Hne].
  - rewrite lookup_insert_eq. simpl.
    rewrite (bool_decide_eq_true_2 (n ∈ n :: rest)) by (left).
    by rewrite orb_true_r.
  - rewrite lookup_insert_ne by done.
    f_equal. apply bool_decide_ext. rewrite elem_of_cons.
    split; [by right|]. by intros [Heq|Hin]; [symmetry in Heq|].
Qed.

Lemma stepsToAdd_lookup (given : list string) (n : string) :
  default false (stepsToAddOf given !! n) = bool_decide (n ∈ given).
Proof.
  unfold stepsToAddOf. rewrite foldl_allow_lookup, lookup_empty. apply orb_false_r.
Qed.

Lemma getSteps_regular (pod : Pod) : getSteps (Some pod) = Ret (regularSteps pod).
Proof.
  unfold getSteps, regularSteps. f_equal. apply map_ext. intros c. apply mkStep_stepOf.
Qed.

Lemma getInitSteps_init (pod : Pod) : getInitSteps (Some pod) = Ret (initSteps pod).
Proof.
  unfold getInitSteps, initSteps. f_equal. apply map_ext. intros c. apply mkStep_stepOf.
Qed.

(** C5, as stated, fails: with [allSteps] and the allow-list ["test"], the
    init step "prepare" is in the result although it is not on the list. *)
Lemma filterSteps_keeps_init_steps :
  name <$> default [] (match filterSteps (Some buildPod) true ["test"] with
                       | Ret sts => Some sts
                       | Panic _ => None
                       end) = ["prepare"; "test"]
  ∧ "prepare" ∉ ["test"].
Proof.
  split; [reflexivity|]. by intros Hin%list_elem_of_singleton.
Qed.

(** C5, amended: the step list is the init steps, when [allSteps] is set,
    followed by the regular steps that pass the allow-list. A regular step
    has the container's name without the prefix "step-" and the state that
    [container_statuses] reports for the container; it passes when no
    allow-list is given or its name is on the list. The init steps are
    prepended whole: the allow-list is not applied to them. *)
Theorem filterSteps_spec (pod : Pod) (all : bool) (stepsGiven : list string) :
  filterSteps (Some pod) all stepsGiven
  = Ret ((if all then initSteps pod else [])
         ++ List.filter (allowed stepsGiven) (regularSteps pod)).
Proof.
  assert (∀ given : list string,
            (if Nat.eqb (length given) 0 then regularSteps pod
             else List.filter (λ sp, default false (stepsToAddOf given !! name sp))
                              (regularSteps pod))
            = List.filter (allowed given) (regularSteps pod)) as Hkept.
  { intros [|g given]; simpl Nat.eqb; cbv iota.
    - symmetry. apply forallb_filter_id, forallb_forall. intros s _.
      unfold allowed. apply bool_decide_eq_true_2. by left.
    - apply filter_ext. intros s. rewrite stepsToAdd_lookup.
      unfold allowed. apply bool_decide_ext. split; [by right|]. by intros [?|?]. }
  unfold filterSteps. rewrite getSteps_regular, <- Hkept.
  destruct all; [rewrite getInitSteps_init|];
    unfold mbind, outcome_bind; by destruct (Nat.eqb _ _).
Qed.

End Steps.

(** ** Streaming the steps of a pod *)

Module Streaming.
Import corev1 pods v1 log sample.

Lemma logsOf_app (t1 t2 : list action) : logsOf (t1 ++ t2) = logsOf t1 ++ logsOf t2.
Proof. apply omap_app. Qed.

Lemma errorsOf_app (t1 t2 : list action) : errorsOf (t1 ++ t2) = errorsOf t1 ++ errorsOf t2.
Proof. apply omap_app. Qed.

(** The happy path of the specification: two steps, in order, each closed by
    its marker. *)
Example scenario_happy_path :
  match readAvailableTaskLogs cluster reader [] buildRun with
  | inr (t, e) => (map (λ l, (Step l, Log' l)) (logsOf t), errorsOf t, e)
  | inl _ => ([], [], Blocked)
  end
  = ([("compile", "a"); ("compile", "b"); ("compile", "EOFLOG");
      ("test", "c"); ("test", "EOFLOG")], [], Finished).
Proof. vm_compute. reflexivity. Qed.

(** The step filter of the specification. *)
Example scenario_step_filter :
  match readAvailableTaskLogs cluster onlyTest [] buildRun with
  | inr (t, e) => (map (λ l, (Step l, Log' l)) (logsOf t), errorsOf t, e)
  | inl _ => ([], [], Blocked)
  end
  = ([("test", "c"); ("test", "EOFLOG")], [], Finished).
Proof. vm_compute. reflexivity. Qed.

(** All steps, the init step first. *)
Example scenario_all_steps :
  match readAvailableTaskLogs cluster everyStep [] buildRun with
  | inr (t, e) => (map (λ l, (Step l, Log' l)) (logsOf t), errorsOf t, e)
  | inl _ => ([], [], Blocked)
  end
  = ([("prepare", "i1"); ("prepare", "EOFLOG");
      ("compile", "a"); ("compile", "b"); ("compile", "EOFLOG");
      ("test", "c"); ("test", "EOFLOG")], [], Finished).
Proof. vm_compute. reflexivity. Qed.

Lemma selectOnce_spec (r : Reader) (st : step) (pick : bool) (lc ec : chan) :
  (lc, ec) ≠ (None, None) →
  let '(out, (lc', ec')) := selectOnce r st pick lc ec in
  (pending lc' + pending ec' < pending lc + pending ec)%nat
  ∧ pendingLogs r st lc = logsOf out ++ pendingLogs r st lc'
  ∧ pendingErrs st ec = errorsOf out ++ pendingErrs st ec'
  ∧ Forall isSend out.
Proof.
  intros Hlive.
  destruct lc as [[|l ls]|], ec as [[|e es]|], pick; try done;
    cbn -[String.append]; repeat split; try lia; repeat constructor.
Qed.

(** The loop runs until both channels are [nil], whatever the scheduler
    does, and by then every pending line has been sent in order, followed by
    the marker, and every pending error has been sent in order. *)
Lemma selectLoop_spec (r : Reader) (st : step) (n : nat) :
  ∀ (sched : list bool) (lc ec : chan),
    (pending lc + pending ec ≤ n)%nat →
    ∃ t sched',
      selectLoop r st n sched lc ec = (t, sched', (None, None))
      ∧ logsOf t = pendingLogs r st lc
      ∧ errorsOf t = pendingErrs st ec
      ∧ Forall isSend t.
Proof.
  induction n as [|n IH]; intros sched lc ec Hn.
  - destruct lc, ec; simpl in Hn; try lia. by exists [], sched.
  - destruct (decide ((lc, ec) = (None, None))) as [[= -> ->]|Hlive].
    { by exists [], sched. }
    pose proof (selectOnce_spec r st (List.hd true sched) lc ec Hlive) as Hone.
    assert (selectLoop r st (S n) sched lc ec
            = let '(out, (lc', ec')) := selectOnce r st (List.hd true sched) lc ec in
              let '(rest, sched', final) := selectLoop r st n (List.tl sched) lc' ec' in
              (out ++ rest, sched', final)) as ->.
    { by destruct lc, ec. }
    destruct (selectOnce r st (List.hd true sched) lc ec) as [out [lc' ec']].
    destruct Hone as (Hlt & Hlogs & Herrs & Hsend).
    destruct (IH (List.tl sched) lc' ec') as (t & sched' & -> & Hl & He & Hs); [lia|].
    exists (out ++ t), sched'. split; [done|].
    rewrite logsOf_app, errorsOf_app, Hl, He. split; [done|]. split; [done|].
    by apply Forall_app.
Qed.

(** What [readStep] does for a step that is read and whose log reader
    starts: it reads, sends, asks for the status, and goes on unless the
    status is an error, which it sends last. *)
Lemma readStep_streamed (env : Env) (r : Reader) (podName : string) (follow timestamps : bool)
    (sched : list bool) (st : step) (ls es : list string) :
  attempted follow st →
  logRead env podName (container st) follow timestamps = inr (ls, es) →
  ∃ t sched',
    readStep env r podName follow timestamps sched st
    = (CallRead podName (container st) :: t
         ++ CallStatus podName (container st)
            :: match containerStatus env podName (container st) with
               | Some err => [SendErr err]
               | None => []
               end,
       sched',
       bool_decide (containerStatus env podName (container st) = None))
    ∧ logsOf t = map (mkLog r st) ls ++ [mkLog r st "EOFLOG"]
    ∧ errorsOf t = map (λ e, "failed to get logs for " +:+ name st +:+ ": " +:+ e) es
    ∧ Forall isSend t.
Proof.
  unfold attempted. intros Hgo Hread. unfold readStep. rewrite Hgo, Hread.
  destruct (selectLoop_spec r st (pending (Some ls) + pending (Some es)) sched
              (Some ls) (Some es)) as (t & sched' & -> & Hl & He & Hs); [done|].
  exists t, sched'. split; [|done].
  by destruct (containerStatus env podName (container st)).
Qed.

Lemma readStepsLogs_cons (env : Env) (r : Reader) (podName : string) (follow timestamps : bool)
    (sched : list bool) (st : step) (rest : list step) :
  readStepsLogs env r podName follow timestamps sched (st :: rest)
  = let '(t, sched', goOn) := readStep env r podName follow timestamps sched st in
    if goOn then
      let '(t', sched'') := readStepsLogs env r podName follow timestamps sched' rest in
      (t ++ t', sched'')
    else (t, sched').
Proof. reflexivity. Qed.

Lemma markers_app (l1 l2 : list Log) : markers (l1 ++ l2) = (markers l1 + markers l2)%nat.
Proof. unfold markers. by rewrite List.filter_app, length_app. Qed.

Lemma markers_lines (r : Reader) (st : step) (ls : list string) :
  markers (map (mkLog r st) ls) = length (List.filter (String.eqb "EOFLOG") ls).
Proof.
  unfold markers. induction ls as [|l ls IH]; [done|].
  cbn [map List.filter]. unfold isMarker at 1. cbn [Log' mkLog].
  rewrite (String.eqb_sym l). destruct (String.eqb "EOFLOG" l); simpl; by rewrite IH.
Qed.

Lemma readPodLogs_cons (env : Env) (r : Reader) (follow timestamps : bool)
    (sched : list bool) (podName : string) (rest : list string) :
  readPodLogs env r follow timestamps sched (podName :: rest)
  = match fetched env follow podName with
    | None => ([], stalled env follow podName)
    | Some (pod, err) =>
        match filterSteps pod (allSteps r) (steps r) with
        | Panic msg => (podFailure env r err, Panicked msg)
        | Ret sts =>
            let '(t, sched') := readStepsLogs env r podName follow timestamps sched sts in
            let '(t', e) := readPodLogs env r follow timestamps sched' rest in
            (podFailure env r err ++ t ++ t', e)
        end
    end.
Proof.
  cbn [readPodLogs]. unfold fetched, stalled.
  by destruct (getPod env follow podName) as [[pod err]| |].
Qed.

(** Every record that a step gives rise to carries the step's name. *)
Lemma readStep_logs (env : Env) (r : Reader) (podName : string) (follow timestamps : bool)
    (sched : list bool) (st : step) :
  Forall (λ l, Step l = name st)
         (logsOf (readStep env r podName follow timestamps sched st).1.1).
Proof.
  unfold readStep. destruct (negb follow && negb (hasStarted st)) eqn:Hskip; [constructor|].
  destruct (logRead env podName (container st) follow timestamps) as [err|[ls es]] eqn:Hread.
  { constructor. }
  destruct (selectLoop_spec r st (pending (Some ls) + pending (Some es)) sched
              (Some ls) (Some es)) as (t & sched' & -> & Hl & _); [done|].
  assert (Forall (λ l, Step l = name st) (logsOf t)) as Ht.
  { rewrite Hl. apply Forall_app. split; [|by repeat constructor].
    apply Forall_forall. intros l (x & -> & _)%list_elem_of_fmap. done. }
  destruct (containerStatus env podName (container st)); cbn [fst];
    change (logsOf (?a :: ?l)) with (logsOf l); rewrite logsOf_app;
    apply Forall_app; (split; [exact Ht|constructor]).
Qed.

Lemma readStepsLogs_logs (env : Env) (r : Reader) (podName : string) (follow timestamps : bool)
    (sts : list step) :
  ∀ sched,
    Forall (λ l, ∃ st, st ∈ sts ∧ Step l = name st)
           (logsOf (readStepsLogs env r podName follow timestamps sched sts).1).
Proof.
  induction sts as [|st rest IH]; intros sched; [constructor|].
  rewrite readStepsLogs_cons.
  pose proof (readStep_logs env r podName follow timestamps sched st) as Hst.
  destruct (readStep env r podName follow timestamps sched st) as [[t sched'] goOn].
  cbn [fst] in Hst.
  assert (Forall (λ l, ∃ st0, st0 ∈ st :: rest ∧ Step l = name st0) (logsOf t)) as Ht.
  { eapply Forall_impl; [exact Hst|]. intros l Hl. exists st. split; [left|done]. }
  destruct goOn; [|exact Ht].
  specialize (IH sched').
  destruct (readStepsLogs env r podName follow timestamps sched' rest) as [t' sched''].
  cbn [fst] in *. rewrite logsOf_app. apply Forall_app. split; [exact Ht|].
  eapply Forall_impl; [exact IH|]. intros l (st0 & Hin & Hl). exists st0. split; [by right|done].
Qed.

(** Steps whose status is fine are gone through one after the other. *)
Lemma readStepsLogs_app (env : Env) (r : Reader) (podName : string) (follow timestamps : bool)
    (pre post : list step) :
  Forall (λ s, containerStatus env podName (container s) = None) pre →
  ∀ sched,
    readStepsLogs env r podName follow timestamps sched (pre ++ post)
    = let '(t, sched') := readStepsLogs env r podName follow timestamps sched pre in
      let '(t', sched'') := readStepsLogs env r podName follow timestamps sched' post in
      (t ++ t', sched'').
Proof.
  induction 1 as [|st pre Hst _ IH]; intros sched.
  { cbn [app readStepsLogs]. by destruct (readStepsLogs _ _ _ _ _ _ post). }
  rewrite <- app_comm_cons, !readStepsLogs_cons.
  assert ((readStep env r podName follow timestamps sched st).2 = true) as Hgo.
  { unfold readStep. destruct (negb follow && negb (hasStarted st)); [done|].
    destruct (logRead env podName (container st) follow timestamps) as [err|[ls es]]; [done|].
    destruct (selectLoop _ _ _ _ _ _) as [[t s'] f]. by rewrite Hst. }
  destruct (readStep env r podName follow timestamps sched st) as [[t sched'] goOn].
  cbn [snd] in Hgo. subst goOn. rewrite IH.
  destruct (readStepsLogs env r podName follow timestamps sched' pre) as [t1 s1].
  destruct (readStepsLogs env r podName follow timestamps s1 post) as [t2 s2].
  by rewrite app_assoc.
Qed.

(** C1, as stated, fails: a step whose container prints the line EOFLOG
    gives rise to two records with the line EOFLOG, not to exactly one. *)
Lemma echoed_marker_counts_twice :
  attempted false compile
  ∧ logRead echoCluster "build-pod" (container compile) false false = inr (["a"; "EOFLOG"], [])
  ∧ Log' <$> logsOf (readStep echoCluster reader "build-pod" false false [] compile).1.1
    = ["a"; "EOFLOG"; "EOFLOG"]
  ∧ markers (logsOf (readStep echoCluster reader "build-pod" false false [] compile).1.1) = 2%nat.
Proof. split; [|split; [|split]]; reflexivity. Qed.

(** C1, amended: for every step that is read and whose log reader starts,
    the records sent for the step are the container's lines in order and
    then one end marker, which is the last record of the step: whatever is
    sent on [logC] afterwards for this pod belongs to a later step of the
    list. The records of the step whose line is EOFLOG are the marker and
    the container's own lines of that text, so there is exactly one when the
    container prints no such line. *)
Theorem streamed_step_ends_with_marker (env : Env) (r : Reader) (podName : string)
    (follow timestamps : bool) (sched : list bool) (st : step) (rest : list step)
    (ls es : list string) :
  attempted follow st →
  logRead env podName (container st) follow timestamps = inr (ls, es) →
  let own := logsOf (readStep env r podName follow timestamps sched st).1.1 in
  own = map (mkLog r st) ls ++ [mkLog r st "EOFLOG"]
  ∧ last own = Some (mkLog r st "EOFLOG")
  ∧ markers own = S (length (List.filter (String.eqb "EOFLOG") ls))
  ∧ ("EOFLOG" ∉ ls → markers own = 1%nat)
  ∧ ∃ later,
      logsOf (readStepsLogs env r podName follow timestamps sched (st :: rest)).1
      = own ++ later
      ∧ Forall (λ l, ∃ st', st' ∈ rest ∧ Step l = name st') later.
Proof.
  intros Hgo Hread own.
  destruct (readStep_streamed env r podName follow timestamps sched st ls es Hgo Hread)
    as (t & sched' & Hstep & Hl & _).
  assert (own = map (mkLog r st) ls ++ [mkLog r st "EOFLOG"]) as Hown.
  { unfold own. rewrite Hstep. cbn [fst].
    change (logsOf (?a :: ?l)) with (logsOf l). rewrite logsOf_app, Hl.
    by destruct (containerStatus env podName (container st)); rewrite app_nil_r. }
  assert (markers own = S (length (List.filter (String.eqb "EOFLOG") ls))) as Hcount.
  { rewrite Hown, markers_app, markers_lines. cbn. lia. }
  split; [exact Hown|]. split; [rewrite Hown; apply last_snoc|].
  split; [exact Hcount|]. split.
  - intros Hnone. rewrite Hcount. f_equal.
    clear -Hnone. induction ls as [|l ls IH]; [done|].
    apply not_elem_of_cons in Hnone as [Hne Hrest]. cbn [List.filter].
    destruct (String.eqb_spec "EOFLOG" l); [done|]. by apply IH.
  - rewrite readStepsLogs_cons. unfold own.
    destruct (readStep env r podName follow timestamps sched st) as [[t0 s0] goOn].
    cbn [fst]. destruct goOn.
    + pose proof (readStepsLogs_logs env r podName follow timestamps rest s0) as Hrest.
      destruct (readStepsLogs env r podName follow timestamps s0 rest) as [t' s''].
      cbn [fst] in *. exists (logsOf t'). by rewrite logsOf_app.
    + exists []. by rewrite app_nil_r.
Qed.

Lemma streamed_step_ends_with_marker_witness :
  let own := logsOf (readStep cluster reader "build-pod" false false [] compile).1.1 in
  own = map (mkLog reader compile) ["a"; "b"] ++ [mkLog reader compile "EOFLOG"]
  ∧ last own = Some (mkLog reader compile "EOFLOG")
  ∧ markers own = S (length (List.filter (String.eqb "EOFLOG") ["a"; "b"]))
  ∧ ("EOFLOG" ∉ ["a"; "b"] → markers own = 1%nat)
  ∧ ∃ later,
      logsOf (readStepsLogs cluster reader "build-pod" false false [] (compile :: [test])).1
      = own ++ later
      ∧ Forall (λ l, ∃ st', st' ∈ [test] ∧ Step l = name st') later.
Proof.
  apply (streamed_step_ends_with_marker cluster reader "build-pod" false false []
           compile [test] ["a"; "b"] []); reflexivity.
Defined.

(** A step that is not passed over starts with the call of its log
    reader. *)
Lemma readStep_attempted (env : Env) (r : Reader) (podName : string) (follow timestamps : bool)
    (sched : list bool) (st : step) :
  attempted follow st →
  ∃ t, (readStep env r podName follow timestamps sched st).1.1
       = CallRead podName (container st) :: t.
Proof.
  unfold attempted, readStep. intros ->.
  destruct (logRead env podName (container st) follow timestamps) as [err|[ls es]].
  - by eexists.
  - destruct (selectLoop _ _ _ _ _ _) as [[t s'] f].
    destruct (containerStatus env podName (container st)); by eexists.
Qed.

(** C7: when the status of a step, asked for once the step's two channels
    are done with, is an error, the error is sent on [errC], nothing is done
    for the remaining steps of the pod, and the reader goes on with the pod
    names that follow. *)
Theorem status_error_skips_remaining_steps (env : Env) (r : Reader) (follow timestamps : bool)
    (sched : list bool) (podName : string) (podNames : list string)
    (pod : Pod) (podErr : error) (pre post : list step) (st : step)
    (ls es : list string) (err : string) :
  fetched env follow podName = Some (Some pod, podErr) →
  filterSteps (Some pod) (allSteps r) (steps r) = Ret (pre ++ st :: post) →
  Forall (λ s, containerStatus env podName (container s) = None) pre →
  attempted follow st →
  logRead env podName (container st) follow timestamps = inr (ls, es) →
  containerStatus env podName (container st) = Some err →
  ∃ t sched',
    Forall isSend t
    ∧ logsOf t = map (mkLog r st) ls ++ [mkLog r st "EOFLOG"]
    ∧ errorsOf t = map (λ e, "failed to get logs for " +:+ name st +:+ ": " +:+ e) es
    ∧ readPodLogs env r follow timestamps sched (podName :: podNames)
      = ((podFailure env r podErr
          ++ (readStepsLogs env r podName follow timestamps sched pre).1)
         ++ (CallRead podName (container st) :: t
             ++ [CallStatus podName (container st); SendErr err])
         ++ (readPodLogs env r follow timestamps sched' podNames).1,
         (readPodLogs env r follow timestamps sched' podNames).2).
Proof.
  intros Hpod Hsteps Hpre Hgo Hread Hstatus.
  rewrite readPodLogs_cons, Hpod, Hsteps, (readStepsLogs_app _ _ _ _ _ _ _ Hpre).
  destruct (readStepsLogs env r podName follow timestamps sched pre) as [t1 s1].
  rewrite readStepsLogs_cons.
  destruct (readStep_streamed env r podName follow timestamps s1 st ls es Hgo Hread)
    as (t & sched' & -> & Hl & He & Hs).
  rewrite Hstatus. cbn [bool_decide decide_rel fst snd].
  exists t, sched'. split; [exact Hs|]. split; [exact Hl|]. split; [exact He|].
  rewrite bool_decide_eq_false_2 by done.
  destruct (readPodLogs env r follow timestamps sched' podNames) as [t' e].
  cbn [fst snd]. by rewrite <- !app_assoc.
Qed.

Lemma status_error_skips_remaining_steps_witness :
  ∃ t sched',
    Forall isSend t
    ∧ logsOf t = map (mkLog reader compile) ["a"; "b"] ++ [mkLog reader compile "EOFLOG"]
    ∧ errorsOf t = map (λ e, "failed to get logs for " +:+ name compile +:+ ": " +:+ e) []
    ∧ readPodLogs failingCluster reader false false [] ("build-pod" :: ["build-pod"])
      = ((podFailure failingCluster reader None
          ++ (readStepsLogs failingCluster reader "build-pod" false false [] []).1)
         ++ (CallRead "build-pod" (container compile) :: t
             ++ [CallStatus "build-pod" (container compile);
                 SendErr "container step-compile has failed: Error"])
         ++ (readPodLogs failingCluster reader false false sched' ["build-pod"]).1,
         (readPodLogs failingCluster reader false false sched' ["build-pod"]).2).
Proof.
  apply (status_error_skips_remaining_steps failingCluster reader false false []
           "build-pod" ["build-pod"] buildPod None [] [test] compile ["a"; "b"] []
           "container step-compile has failed: Error");
    first [reflexivity | constructor].
Defined.

(** With the step compile failing, the step test is not read, in either of
    two attempts. *)
Example failing_step_hides_later_steps :
  readPodLogs failingCluster reader false false [] ["build-pod"; "build-pod"]
  = (let attempt :=
       [CallRead "build-pod" "step-compile";
        SendLog (mkLog reader compile "a"); SendLog (mkLog reader compile "b");
        SendLog (mkLog reader compile "EOFLOG");
        CallStatus "build-pod" "step-compile";
        SendErr "container step-compile has failed: Error"] in
     attempt ++ attempt, Finished).
Proof. vm_compute. reflexivity. Qed.

(** C10: a container of the pod spec with no entry of its name in the
    statuses gets the zero container state, whose [Waiting] is [nil]; its
    step counts as started; and without [follow] the loop over the steps
    does not pass it over: the first thing it does for the step is to call
    the container's log reader. *)
Theorem unreported_step_is_read (pod : Pod) (c : Container) :
  (c ∈ Containers pod → c_Name c ∉ cs_Name <$> ContainerStatuses pod →
   ∃ sts, getSteps (Some pod) = Ret sts ∧ unreported c ∈ sts)
  ∧ (c ∈ InitContainers pod → c_Name c ∉ cs_Name <$> InitContainerStatuses pod →
     ∃ sts, getInitSteps (Some pod) = Ret sts ∧ unreported c ∈ sts)
  ∧ Waiting (state (unreported c)) = None
  ∧ hasStarted (unreported c) = true
  ∧ attempted false (unreported c)
  ∧ ∀ env r podName timestamps sched rest,
      ∃ t, (readStepsLogs env r podName false timestamps sched (unreported c :: rest)).1
           = CallRead podName (c_Name c) :: t.
Proof.
  assert (∀ statuses cs, c ∈ cs → c_Name c ∉ cs_Name <$> statuses →
            unreported c ∈ map (stepOf statuses) cs) as Hin.
  { intros statuses cs Hc Hn.
    replace (unreported c) with (stepOf statuses c).
    - by apply list_elem_of_fmap_2.
    - unfold stepOf, unreported. by rewrite Steps.reportedState_absent. }
  split; [|split; [|split; [reflexivity|split; [reflexivity|split; [reflexivity|]]]]].
  - intros Hc Hn. eexists. split; [apply Steps.getSteps_regular|]. by apply Hin.
  - intros Hc Hn. eexists. split; [apply Steps.getInitSteps_init|]. by apply Hin.
  - intros env r podName timestamps sched rest. rewrite readStepsLogs_cons.
    destruct (readStep_attempted env r podName false timestamps sched (unreported c))
      as [t Ht]; [reflexivity|].
    destruct (readStep env r podName false timestamps sched (unreported c)) as [[t0 s0] goOn].
    cbn [fst] in Ht. subst t0. destruct goOn; [|by eexists].
    destruct (readStepsLogs env r podName false timestamps s0 rest). by eexists.
Qed.

Lemma unreported_step_is_read_witness :
  ∃ sts, getSteps (Some imagePull) = Ret sts
         ∧ unreported {| c_Name := "step-compile"; c_Image := "golang" |} ∈ sts.
Proof.
  apply (proj1 (unreported_step_is_read imagePull
                  {| c_Name := "step-compile"; c_Image := "golang" |})).
  - simpl. left.
  - simpl. apply not_elem_of_nil.
Defined.

(** When the pod could not be got and the pointer to it is [nil], the
    reader sends the error and then panics in [filterSteps]: the pod names
    that follow are never looked at. *)
Lemma nil_pod_panics (env : Env) (r : Reader) (follow timestamps : bool) (sched : list bool)
    (podName : string) (podNames : list string) (err : error) :
  fetched env follow podName = Some (None, err) →
  readPodLogs env r follow timestamps sched (podName :: podNames)
  = (podFailure env r err, Panicked nilDereference).
Proof. intros Hnil. by rewrite readPodLogs_cons, Hnil. Qed.

(** A pod without containers, such as the empty object that the API client
    hands back together with its error, has no steps: the reader sends the
    error and goes on with the pod names that follow. *)
Lemma empty_pod_is_passed_over (env : Env) (r : Reader) (follow timestamps : bool)
    (sched : list bool) (podName : string) (podNames : list string) (pod : Pod) (err : error) :
  fetched env follow podName = Some (Some pod, err) →
  Containers pod = [] → InitContainers pod = [] →
  readPodLogs env r follow timestamps sched (podName :: podNames)
  = (podFailure env r err ++ (readPodLogs env r follow timestamps sched podNames).1,
     (readPodLogs env r follow timestamps sched podNames).2).
Proof.
  intros Hpod Hcs Hics. rewrite readPodLogs_cons, Hpod.
  assert (filterSteps (Some pod) (allSteps r) (steps r) = Ret []) as ->.
  { unfold filterSteps, getSteps, getInitSteps. rewrite Hcs, Hics.
    by destruct (allSteps r), (Nat.eqb (length (steps r)) 0). }
  cbn [readStepsLogs]. by destruct (readPodLogs env r follow timestamps sched podNames).
Qed.

(** [Wait] answers a failed probe with a [nil] pod. *)
Lemma Wait_probe_failed (got : option Pod * error) (events : list object) (err : string) :
  got.2 = Some err → Wait got events = Some (None, Some err).
Proof. unfold Wait. by intros ->. Qed.

(** C4, on the code: with [follow], a pod name whose pod is gone makes the
    reader send the error and panic; the pod name after it, whose pod is
    there, is not read. *)
Theorem missing_pod_crashes_reader :
  fetched cluster true "gone-pod" = Some (None, Some "pods gone-pod not found")
  ∧ readPodLogs cluster reader true false [] ["gone-pod"; "build-pod"]
    = ([SendErr "task build failed: pods gone-pod not found. Run tkn tr desc build for more details"],
       Panicked nilDereference)
  ∧ ∃ t, readPodLogs cluster reader true false [] ["build-pod"] = (t, Finished)
         ∧ Log' <$> logsOf t = ["a"; "b"; "EOFLOG"; "c"; "EOFLOG"].
Proof.
  split; [reflexivity|]. split; [reflexivity|].
  eexists. split; [vm_compute; reflexivity|]. reflexivity.
Qed.

(** The pod that [Wait] returns together with an error is read like any
    other: for the pod whose image cannot be pulled the reader sends the
    error of the pod and then tries the pod's step. *)
Example failed_pod_is_still_read :
  readPodLogs stuckCluster reader true false [] ["build-pod"]
  = ([SendErr "task build failed: ImagePullBackOff. Run tkn tr desc build for more details";
      CallRead "build-pod" "step-compile";
      SendErr "error in getting logs for step compile: container step-compile is waiting to start: ImagePullBackOff"],
     Finished).
Proof. vm_compute. reflexivity. Qed.

End Streaming.

(** ** Discovery of the pods of a run *)

Module Discovery.
Import corev1 pods v1 log sample.

Lemma nonEmpty_spec (n : string) : nonEmpty n = true ↔ n ≠ "".
Proof.
  unfold nonEmpty. destruct (String.eqb_spec n ""); split; intros; done.
Qed.

Lemma consistent_noPods : consistent noPods.
Proof.
  split; [constructor|]. intros n. cbn. rewrite lookup_empty. split.
  - by intros [? ?].
  - by intros ?%elem_of_nil.
Qed.

Lemma addPod_known (n : string) (d : discovery) :
  consistent d → n ∈ podC d → addPod n d = d.
Proof.
  intros [_ Hmap] Hin. unfold addPod.
  apply Hmap in Hin as [b ->]. reflexivity.
Qed.

Lemma addPod_new (n : string) (d : discovery) :
  consistent d → n ∉ podC d →
  podC (addPod n d) = podC d ++ [n] ∧ errC (addPod n d) = errC d ∧ consistent (addPod n d).
Proof.
  intros [Hnd Hmap] Hnew. unfold addPod.
  destruct (podMap d !! n) eqn:E.
  { exfalso. apply Hnew, Hmap. by rewrite E. }
  cbn. split; [done|]. split; [done|]. split; cbn.
  - apply NoDup_app. split; [done|]. split; [|apply NoDup_singleton].
    intros x Hx ->%list_elem_of_singleton. done.
  - intros k. rewrite lookup_insert_is_Some, elem_of_app, list_elem_of_singleton, Hmap.
    destruct (decide (n = k)) as [->|]; intuition congruence.
Qed.

Lemma addPod_consistent (n : string) (d : discovery) :
  consistent d → consistent (addPod n d).
Proof.
  intros Hd. destruct (decide (n ∈ podC d)).
  - by rewrite addPod_known.
  - by apply addPod_new.
Qed.

Lemma addPod_errC (n : string) (d : discovery) : errC (addPod n d) = errC d.
Proof. unfold addPod. by destruct (podMap d !! n). Qed.

(** Sending a list of names through [addPod]: the names not sent before are
    sent, each once, in the order of their first occurrence. *)
Lemma addPods_spec (names : list string) :
  ∀ d, consistent d →
    let d' := foldl (λ d n, addPod n d) d names in
    consistent d'
    ∧ errC d' = errC d
    ∧ ∃ extra,
        podC d' = podC d ++ extra
        ∧ extra `sublist_of` names
        ∧ (∀ n, n ∈ extra ↔ n ∈ names ∧ n ∉ podC d)
        ∧ (NoDup (podC d ++ names) → extra = names).
Proof.
  induction names as [|n names IH]; intros d Hd; cbn [foldl].
  { split; [done|]. split; [done|]. exists []. rewrite app_nil_r.
    split; [done|]. split; [done|]. split; [|done].
    intros k. split; [by intros ?%elem_of_nil|by intros [?%elem_of_nil _]]. }
  destruct (IH (addPod n d) (addPod_consistent n d Hd)) as (Hc & He & extra & Hp & Hs & Hm & Hx).
  split; [exact Hc|]. split; [by rewrite He, addPod_errC|].
  destruct (decide (n ∈ podC d)) as [Hin|Hnew].
  - rewrite (addPod_known n d Hd Hin) in *. exists extra.
    split; [exact Hp|]. split; [by apply sublist_cons|]. split.
    + intros k. rewrite Hm, elem_of_cons.
      split; [tauto|]. intros [[->|Hk] Hnk]; done.
    + intros Hnd. apply NoDup_app in Hnd as (_ & Hdisj & _).
      exfalso. apply (Hdisj n Hin). by left.
  - destruct (addPod_new n d Hd Hnew) as (Hpn & _ & _). rewrite Hpn in *.
    exists (n :: extra). split; [by rewrite Hp, <- app_assoc|].
    split; [by apply sublist_skip|]. split.
    + intros k. rewrite !elem_of_cons, Hm, elem_of_app, list_elem_of_singleton.
      destruct (decide (k = n)) as [->|Hne]; intuition congruence.
    + intros Hnd. f_equal. apply Hx. by rewrite <- app_assoc.
Qed.

(** Going through the names from left to right, a name is appended exactly
    when it has not occurred before. *)
Lemma firstOccurrences_snoc (names : list string) (n : string) :
  ∀ seen,
    firstOccurrences seen (names ++ [n])
    = firstOccurrences seen names
      ++ (if bool_decide (n ∈ seen ∨ n ∈ names) then [] else [n]).
Proof.
  induction names as [|a names IH]; intros seen; cbn [firstOccurrences app].
  { rewrite (bool_decide_ext (n ∈ seen ∨ n ∈ []) (n ∈ seen)).
    - by destruct (bool_decide (n ∈ seen)).
    - split; [|by left]. intros [?|?%elem_of_nil]; done. }
  destruct (bool_decide (a ∈ seen)) eqn:Ea.
  - apply bool_decide_eq_true in Ea. rewrite IH.
    rewrite (bool_decide_ext (n ∈ seen ∨ n ∈ a :: names) (n ∈ seen ∨ n ∈ names)); [done|].
    rewrite elem_of_cons. split; [|tauto]. intros [?|[->|?]]; tauto.
  - rewrite IH. cbn [app].
    rewrite (bool_decide_ext (n ∈ seen ∨ n ∈ a :: names) (n ∈ a :: seen ∨ n ∈ names)); [done|].
    rewrite !elem_of_cons. tauto.
Qed.

(** Sending a list of names through [addPod] sends their first occurrences,
    those already sent apart. *)
Lemma addPods_firstOccurrences (names : list string) :
  ∀ d seen, consistent d → (∀ n, n ∈ seen ↔ n ∈ podC d) →
    podC (foldl (λ d n, addPod n d) d names) = podC d ++ firstOccurrences seen names.
Proof.
  induction names as [|n names IH]; intros d seen Hd Hseen; cbn [foldl firstOccurrences].
  { by rewrite app_nil_r. }
  destruct (decide (n ∈ podC d)) as [Hin|Hnew].
  - rewrite (addPod_known n d Hd Hin).
    rewrite bool_decide_eq_true_2 by (by apply Hseen). by apply IH.
  - destruct (addPod_new n d Hd Hnew) as (Hpn & _ & Hc).
    rewrite bool_decide_eq_false_2 by (by rewrite Hseen).
    rewrite (IH (addPod n d) (n :: seen) Hc).
    + by rewrite Hpn, <- app_assoc.
    + intros k. rewrite Hpn, elem_of_cons, elem_of_app, list_elem_of_singleton, Hseen. tauto.
Qed.

Lemma announce_attempts (run : TaskRun) (d : discovery) :
  PodName run ≠ "" →
  announce run d = foldl (λ d n, addPod n d) d (attempts run).
Proof.
  intros Hp%nonEmpty_spec. unfold announce, attempts. rewrite Hp.
  rewrite foldl_app. cbn [foldl]. f_equal.
  change (map rs_PodName (RetriesStatus run)) with (rs_PodName <$> RetriesStatus run).
  rewrite foldl_fmap. by destruct (RetriesStatus run).
Qed.

Lemma sendErr_consistent (e : string) (d : discovery) : consistent d → consistent (sendErr e d).
Proof. done. Qed.

(** Whatever the watch and the timer deliver, the loop only adds to what has
    been sent on [podC], and never a name that has been sent before. *)
Lemma watchLoop_consistent (r : Reader) (inputs : list watchInput) :
  ∀ run d, consistent d →
    consistent (watchLoop r run d inputs).1
    ∧ podC d `prefix_of` podC (watchLoop r run d inputs).1.
Proof.
  induction inputs as [|[[err|run']| |] rest IH]; intros run d Hd; cbn [watchLoop].
  5: done.
  - done.
  - done.
  - assert (podC d `prefix_of` podC (addPod (PodName run') d)) as Hpre.
    { destruct (decide (PodName run' ∈ podC d)).
      - by rewrite addPod_known.
      - destruct (addPod_new (PodName run') d Hd) as (-> & _); [done|]. by apply prefix_app_r. }
    destruct (nonEmpty (PodName run')); [|by apply IH].
    destruct (negb (areRetriesScheduled run' (retries r))).
    + split; [by apply addPod_consistent|done].
    + destruct (IH run' (addPod (PodName run') d)) as [Hc Hp]; [by apply addPod_consistent|].
      split; [done|]. by etrans.
  - destruct (onTimeout r run) as [[err|]|]; [done|done|by apply IH].
Qed.

(** The loop consumes its inputs from left to right. *)
Lemma watchLoop_app (r : Reader) (pre rest : list watchInput) :
  ∀ run d d1 run1,
    watchLoop r run d pre = (d1, Watching run1) →
    watchLoop r run d (pre ++ rest) = watchLoop r run1 d1 rest.
Proof.
  induction pre as [|[[err|run']| |] pre IH]; intros run d d1 run1; cbn [watchLoop app].
  5: done.
  - by intros [= -> ->].
  - done.
  - destruct (nonEmpty (PodName run')); [|by apply IH].
    destruct (negb (areRetriesScheduled run' (retries r))); [done|by apply IH].
  - destruct (onTimeout r run) as [[err|]|]; [done|done|by apply IH].
Qed.

(** Of the attempts p0, p1, p0, live mode sends p0 and then p1, in the
    order of their first occurrences; available mode sends all three. *)
Example revisited_pod_names :
  attempts revisited = ["p0"; "p1"; "p0"]
  ∧ firstOccurrences [] (attempts revisited) = ["p0"; "p1"]
  ∧ podC (announce revisited noPods) = ["p0"; "p1"]
  ∧ availablePodNames revisited = ["p0"; "p1"; "p0"].
Proof. done. Qed.

(** C2, as stated, fails: when a retry is recorded under the name of the
    current pod, available mode sends that name twice, and live mode sends
    it once, which is not the sequence of the attempts. *)
Lemma repeated_pod_name :
  attempts sameName = ["p0"; "p0"]
  ∧ availablePodNames sameName = ["p0"; "p0"]
  ∧ ¬ NoDup (availablePodNames sameName)
  ∧ podC (announce sameName noPods) = ["p0"]
  ∧ podC (announce sameName noPods) ≠ attempts sameName.
Proof.
  split; [reflexivity|]. split; [reflexivity|]. split; [|split; [reflexivity|done]].
  intros Hnd. apply NoDup_cons in Hnd as [Hnot _]. apply Hnot. left.
Qed.

(** C2, amended: for a run whose current pod name is set, available mode
    sends the names of the attempts as they are, retries oldest first and
    the current pod last, a repeated name as often as it occurs. Live mode
    sends, on entry, the same names in the same order but each name at its
    first occurrence only: what it sends is exactly [firstOccurrences] of
    the attempts; and whatever the watch delivers later it never sends a
    name twice. When the names of the attempts are pairwise different, both
    modes send exactly r1, ..., rk, p. *)
Theorem pod_names_in_attempt_order (run : TaskRun) :
  PodName run ≠ "" →
  availablePodNames run = attempts run
  ∧ podC (announce run noPods) = firstOccurrences [] (attempts run)
  ∧ NoDup (podC (announce run noPods))
  ∧ podC (announce run noPods) `sublist_of` attempts run
  ∧ (∀ n, n ∈ podC (announce run noPods) ↔ n ∈ attempts run)
  ∧ (NoDup (attempts run) →
     podC (announce run noPods) = attempts run
     ∧ availablePodNames run = podC (announce run noPods))
  ∧ ∀ r inputs,
      NoDup (podC (watchLoop r run (announce run noPods) inputs).1)
      ∧ podC (announce run noPods)
        `prefix_of` podC (watchLoop r run (announce run noPods) inputs).1.
Proof.
  intros Hp.
  assert (availablePodNames run = attempts run) as Havail.
  { unfold availablePodNames, attempts. apply nonEmpty_spec in Hp. rewrite Hp.
    by destruct (RetriesStatus run). }
  rewrite (announce_attempts run noPods Hp).
  assert (podC (foldl (λ d n, addPod n d) noPods (attempts run))
          = firstOccurrences [] (attempts run)) as Hfirst.
  { by rewrite (addPods_firstOccurrences (attempts run) noPods [] consistent_noPods). }
  destruct (addPods_spec (attempts run) noPods consistent_noPods)
    as (Hc & _ & extra & Hpods & Hsub & Hmem & Hexact).
  cbn [podC noPods app] in Hpods, Hexact.
  split; [exact Havail|]. split; [exact Hfirst|]. rewrite Hpods.
  split; [rewrite <- Hpods; apply Hc|]. split; [exact Hsub|].
  split.
  { intros n. rewrite Hmem. cbn. split; [tauto|]. intros Hn. split; [done|apply not_elem_of_nil]. }
  split.
  { intros Hnd. rewrite (Hexact Hnd). done. }
  intros r inputs. rewrite <- Hpods.
  destruct (watchLoop_consistent r inputs run _ Hc) as [[Hnd _] Hpre]. done.
Qed.

Lemma pod_names_in_attempt_order_witness :
  availablePodNames retried = ["p0"; "p1"]
  ∧ podC (announce retried noPods) = ["p0"; "p1"].
Proof.
  destruct (pod_names_in_attempt_order retried) as (Havail & _ & _ & _ & _ & Hexact & _).
  - discriminate.
  - destruct Hexact as [Hlive _].
    + change (attempts retried) with ["p0"; "p1"].
      apply NoDup_cons. split; [|apply NoDup_singleton].
      intros Hin%list_elem_of_singleton. discriminate Hin.
    + split; [exact Havail|exact Hlive].
Defined.

Lemma areRetriesScheduled_spec (run : TaskRun) (n : Z) :
  areRetriesScheduled run n = true
  ↔ IsDone run = false ∧ (Z.of_nat (length (RetriesStatus run)) < n)%Z.
Proof.
  unfold areRetriesScheduled. destruct (IsDone run).
  - split; [done|by intros [? _]].
  - rewrite Z.ltb_lt. tauto.
Qed.

Lemma hasTaskRunFailed_spec (run : TaskRun) (taskName : string) :
  (isFailure run = true →
   ∃ c cs, tr_Conditions run = c :: cs ∧ cond_Status c = ConditionFalse
           ∧ hasTaskRunFailed run taskName
             = Some ("task " +:+ taskName +:+ " has failed: " +:+ cond_Message c))
  ∧ (isFailure run = false → hasTaskRunFailed run taskName = None).
Proof.
  unfold hasTaskRunFailed, isFailure. destruct (tr_Conditions run) as [|c cs].
  - split; [done|done].
  - split.
    + intros Hf. rewrite Hf. exists c, cs. by apply String.eqb_eq in Hf.
    + by intros ->.
Qed.

(** C6, as stated, fails: when the timer fires for a run that has not
    failed, has started and has a pod, but for which a retry is still
    expected, discovery neither sends an error nor ends; it goes on
    watching. *)
Lemma timeout_with_retries_pending :
  hasTaskRunFailed firstAttempt (task patient) = None
  ∧ HasStarted firstAttempt = true
  ∧ PodName firstAttempt = "p0"
  ∧ areRetriesScheduled firstAttempt (retries patient) = true
  ∧ watchLoop patient firstAttempt (announce firstAttempt noPods) [TimeoutFired]
    = (announce firstAttempt noPods, Watching firstAttempt)
  ∧ errC (watchLoop patient firstAttempt (announce firstAttempt noPods) [TimeoutFired]).1 = []
  ∧ (watchLoop patient firstAttempt (announce firstAttempt noPods) [TimeoutFired]).2 ≠ Returned.
Proof. repeat (split; [reflexivity|]). done. Qed.

(** C6, amended: when the timer fires, a failed run makes discovery send
    the failure, "task <name> has failed: <message>", and end; else a run
    that has started and has a pod name makes it end with no error when no
    retry is expected, and go on watching, with nothing sent, when one is;
    else it sends "task <name> has not started yet or pod for task not yet
    available" and ends. *)
Theorem timeout_policy (r : Reader) (run : TaskRun) (d : discovery) (rest : list watchInput) :
  (isFailure run = true →
   ∃ c cs, tr_Conditions run = c :: cs
           ∧ watchLoop r run d (TimeoutFired :: rest)
             = (sendErr ("task " +:+ task r +:+ " has failed: " +:+ cond_Message c) d,
                Returned))
  ∧ (isFailure run = false → HasStarted run = true → PodName run ≠ "" →
     areRetriesScheduled run (retries r) = false →
     watchLoop r run d (TimeoutFired :: rest) = (d, Returned))
  ∧ (isFailure run = false → HasStarted run = true → PodName run ≠ "" →
     areRetriesScheduled run (retries r) = true →
     watchLoop r run d (TimeoutFired :: rest) = watchLoop r run d rest)
  ∧ (isFailure run = false → HasStarted run = false ∨ PodName run = "" →
     watchLoop r run d (TimeoutFired :: rest)
     = (sendErr ("task " +:+ task r
                 +:+ " has not started yet or pod for task not yet available") d,
        Returned)).
Proof.
  destruct (hasTaskRunFailed_spec run (task r)) as [Hfail Hok].
  cbn [watchLoop]. unfold onTimeout.
  split; [|split; [|split]].
  - intros Hf. destruct (Hfail Hf) as (c & cs & Hcs & _ & ->). by exists c, cs.
  - intros Hf Hs Hp%nonEmpty_spec Hr. by rewrite (Hok Hf), Hs, Hp, Hr.
  - intros Hf Hs Hp%nonEmpty_spec Hr. by rewrite (Hok Hf), Hs, Hp, Hr.
  - intros Hf Hno. rewrite (Hok Hf).
    destruct Hno as [->|Hp]; [done|].
    assert (nonEmpty (PodName run) = false) as ->.
    { unfold nonEmpty. by rewrite Hp. }
    by rewrite andb_false_r.
Qed.

Lemma timeout_policy_witness :
  ∃ c cs, tr_Conditions failedRun = c :: cs
          ∧ watchLoop patient failedRun noPods (TimeoutFired :: [])
            = (sendErr ("task " +:+ task patient +:+ " has failed: " +:+ cond_Message c) noPods,
               Returned).
Proof.
  apply (proj1 (timeout_policy patient failedRun noPods [])). reflexivity.
Defined.

Lemma retriesExhausted_spec (r : Reader) (run : TaskRun) :
  retriesExhausted r run →
  nonEmpty (PodName run) = true ∧ areRetriesScheduled run (retries r) = false.
Proof.
  intros [Hlen Hp]. split; [by apply nonEmpty_spec|].
  destruct (areRetriesScheduled run (retries r)) eqn:E; [|done].
  apply areRetriesScheduled_spec in E as [_ Hlt]. lia.
Qed.

(** A branch of the [select] that looks at a run whose retries are used up
    and whose pod name is set ends the loop. *)
Lemma watchLoop_exhausted (r : Reader) (run seen : TaskRun) (d : discovery) (i : watchInput) :
  observed run i = Some seen → retriesExhausted r seen →
  ∃ d', (∀ rest, watchLoop r run d (i :: rest) = (d', Returned))
        ∧ ∀ n, n ∈ podC d' → n ∈ podC d ∨ n = PodName seen.
Proof.
  intros Hobs [Hne Hno]%retriesExhausted_spec.
  destruct i as [[err|run']| |]; cbn [observed] in Hobs; [done| | |done];
    injection Hobs as ->; cbn [watchLoop].
  - rewrite Hne, Hno. cbn [negb]. eexists. split; [done|].
    intros n. unfold addPod. destruct (podMap d !! PodName seen); [by left|].
    cbn. rewrite elem_of_app, list_elem_of_singleton. tauto.
  - unfold onTimeout. rewrite Hne, Hno.
    destruct (hasTaskRunFailed seen (task r)); [|destruct (HasStarted seen)];
      cbn [andb]; eexists; (split; [done|]); by left.
Qed.

(** C8, as stated, fails: a run that discovery starts with is not tested.
    With one retry configured and a run that has one retry and its pod name
    set, discovery sends the two names and stays in its [select]; an event
    of the watch that shows a third attempt then makes it send a third pod
    name, and only then does it return. *)
Lemma exhausted_at_entry_keeps_watching :
  retriesExhausted patient retried
  ∧ getTaskRunPodNames patient retried (inr [])
    = inr (announce retried noPods, Watching retried)
  ∧ podC (announce retried noPods) = ["p0"; "p1"]
  ∧ (watchLoop patient retried (announce retried noPods) [WatchEvent (inr thirdAttempt)]).2
    = Returned
  ∧ podC (watchLoop patient retried (announce retried noPods) [WatchEvent (inr thirdAttempt)]).1
    = ["p0"; "p1"; "p2"].
Proof.
  split; [|done]. split; [simpl; lia|discriminate].
Qed.

(** C8, amended: discovery tests the retries only on what its [select]
    receives. The run it starts with is not tested: whatever that run,
    after sending its names discovery is in the [select]. As soon as a
    watch event, or the timer, shows a run with at least the configured
    number of retries and with its pod name set, discovery returns, closing
    its channels: what comes after that input is not looked at, and nothing
    more is sent on [podC] than what had been sent and the pod name of that
    run. *)
Theorem discovery_ends_when_retries_exhausted (r : Reader) (run run1 seen : TaskRun)
    (d d1 : discovery) (pre post : list watchInput) (i : watchInput) :
  watchLoop r run d pre = (d1, Watching run1) →
  observed run1 i = Some seen →
  retriesExhausted r seen →
  watchLoop r run d (pre ++ i :: post) = watchLoop r run d (pre ++ [i])
  ∧ (watchLoop r run d (pre ++ i :: post)).2 = Returned
  ∧ (∀ n, n ∈ podC (watchLoop r run d (pre ++ i :: post)).1 → n ∈ podC d1 ∨ n = PodName seen)
  ∧ ∀ run0, getTaskRunPodNames r run0 (inr []) = inr (announce run0 noPods, Watching run0).
Proof.
  intros Hpre Hobs Hex.
  rewrite !(watchLoop_app r pre _ run d d1 run1 Hpre).
  destruct (watchLoop_exhausted r run1 seen d1 i Hobs Hex) as (d' & Hend & Hin).
  rewrite !Hend. done.
Qed.

Lemma discovery_ends_when_retries_exhausted_witness :
  watchLoop patient firstAttempt (announce firstAttempt noPods)
    ([TimeoutFired] ++ WatchEvent (inr retried) :: [WatchEvent (inr sameName)])
  = watchLoop patient firstAttempt (announce firstAttempt noPods)
      ([TimeoutFired] ++ [WatchEvent (inr retried)])
  ∧ (watchLoop patient firstAttempt (announce firstAttempt noPods)
       ([TimeoutFired] ++ WatchEvent (inr retried) :: [WatchEvent (inr sameName)])).2 = Returned
  ∧ (∀ n, n ∈ podC (watchLoop patient firstAttempt (announce firstAttempt noPods)
                     ([TimeoutFired] ++ WatchEvent (inr retried) :: [WatchEvent (inr sameName)])).1
         → n ∈ podC (announce firstAttempt noPods) ∨ n = PodName retried)
  ∧ ∀ run0, getTaskRunPodNames patient run0 (inr [])
            = inr (announce run0 noPods, Watching run0).
Proof.
  apply (discovery_ends_when_retries_exhausted patient firstAttempt firstAttempt retried
           (announce firstAttempt noPods) (announce firstAttempt noPods)
           [TimeoutFired] [WatchEvent (inr sameName)] (WatchEvent (inr retried))).
  - reflexivity.
  - reflexivity.
  - split; [simpl; lia|discriminate].
Defined.

End Discovery.

(** ** The goroutines of the pod watcher *)

Module WaitProtocol.
Import corev1 pods sample.

Lemma received_cases (e : object) :
  (checkPodStatus e = (None, None) ∧ received e = WRecv)
  ∨ (checkPodStatus e ≠ (None, None) ∧ received e = WLock (checkPodStatus e)).
Proof.
  unfold received. destruct (checkPodStatus e) as [[pod|] [err|]]; auto.
Qed.

Lemma waitLoop_cons (e : object) (es : list object) :
  waitLoop (e :: es)
  = match received e with
    | WRecv => waitLoop es
    | _ => Some (checkPodStatus e)
    end.
Proof.
  cbn [waitLoop]. unfold received. by destruct (checkPodStatus e) as [[pod|] [err|]].
Qed.

Lemma protocol_start (events : list object) : protocol (start events).
Proof. by repeat split. Qed.

Lemma protocol_move (s s' : world) : protocol s → move s s' → protocol s'.
Proof.
  intros (Hmu & Hex & Hstop & Hevent & Hsend) Hmove.
  destruct Hmove; cbn in *;
    try (destruct (received_cases e) as [[_ ->]|[_ ->]]);
    repeat match goal with
           | w : waiter |- _ => destruct w
           | h : handler |- _ => destruct h
           end;
    cbn in *; repeat split; try done; congruence.
Qed.

Lemma protocol_reachable (events : list object) (s : world) :
  reachable (start events) s → protocol s.
Proof.
  induction 1 as [|s s' _ IH Hmove]; [apply protocol_start|].
  by apply (protocol_move s s').
Qed.

(** No handler sends on the closed [eventC]: the part of C9 that holds. *)
Lemma no_send_on_closed_channel (events : list object) (s : world) :
  reachable (start events) s → hdl s ≠ HPanicked.
Proof.
  intros (_ & _ & _ & _ & Hsend)%protocol_reachable Hp. by rewrite Hp in Hsend.
Qed.

Lemma answers_move (events : list object) (s s' : world) :
  protocol s → answers events s → move s s' → answers events s'.
Proof.
  intros (Hmu & Hex & Hstop & Hevent & Hsend) Hans Hmove.
  destruct Hmove; unfold answers, undelivered in *;
    cbn [wt hdl queue mu stopClosed eventClosed stopDone eventDone] in *;
    try done; try (destruct w; cbn in *; congruence).
  rewrite waitLoop_cons in Hans.
  destruct (received_cases e) as [[_ Hr]|[Hne Hr]]; rewrite Hr in *; done.
Qed.

Lemma answers_reachable (events : list object) (s : world) :
  reachable (start events) s → answers events s.
Proof.
  induction 1 as [|s s' Hreach IH Hmove]; [done|].
  apply (answers_move events s s'); [by eapply protocol_reachable|done|done].
Qed.

(** When [Wait] returns, it returns what the first deciding event decides:
    the answer of [waitLoop]. *)
Lemma Wait_returns_first_answer (events : list object) (s : world) (res : option Pod * error) :
  reachable (start events) s → wt s = WReturned res → waitLoop events = Some res.
Proof.
  intros Hans%answers_reachable Hret. unfold answers in Hans. by rewrite Hret in Hans.
Qed.

(** C9, on the code: when the informer reports a readable pod twice, [Wait]
    can take the first event, leave its loop and wait for the mutex, while
    the handler of the second event has taken the mutex, found [stopC] open
    and waits for [Wait] to receive. Neither goroutine can move, and [Wait]
    has not returned. *)
Theorem Wait_can_deadlock :
  reachable (start reportedTwice) embrace
  ∧ stuck embrace
  ∧ ¬ returned embrace
  ∧ waitLoop reportedTwice = Some (Some buildPod, None).
Proof.
  split; [|split; [|split]].
  - unfold embrace, reportedTwice.
    eapply reach_step; [|apply handler_default].
    eapply reach_step; [|apply handler_lock].
    eapply reach_step; [|apply handler_unlock with (m := Some ByHandler)].
    eapply reach_step; [|apply (rendezvous (ObjPod buildPod))].
    eapply reach_step; [|apply handler_default].
    eapply reach_step; [|apply handler_lock].
    apply reach_start.
  - intros s' Hmove. inversion Hmove.
  - intros [res Hres]. discriminate Hres.
  - reflexivity.
Qed.

End WaitProtocol.

(** ** What the channels of the reader carry *)

Module Channels.
Import corev1 pods v1 log sample.

(** Whatever the scheduler does, a step puts on each channel what
    [expectedLogs] and [expectedErrors] say. *)
Lemma readStepsLogs_channels (env : Env) (r : Reader) (podName : string)
    (follow timestamps : bool) (sts : list step) :
  ∀ sched,
    logsOf (readStepsLogs env r podName follow timestamps sched sts).1
    = expectedLogs env r podName follow timestamps sts
    ∧ errorsOf (readStepsLogs env r podName follow timestamps sched sts).1
      = expectedErrors env podName follow timestamps sts.
Proof.
  induction sts as [|st rest IH]; intros sched; [done|].
  rewrite Streaming.readStepsLogs_cons. cbn [expectedLogs expectedErrors].
  destruct (negb follow && negb (hasStarted st)) eqn:Hskip.
  { unfold readStep. rewrite Hskip. specialize (IH sched).
    by destruct (readStepsLogs env r podName follow timestamps sched rest). }
  destruct (logRead env podName (container st) follow timestamps) as [err|[ls es]] eqn:Hread.
  { unfold readStep. rewrite Hskip, Hread. specialize (IH sched).
    destruct (readStepsLogs env r podName follow timestamps sched rest) as [t' s'].
    cbn [fst] in *. destruct IH as [<- <-]. done. }
  destruct (Streaming.readStep_streamed env r podName follow timestamps sched st ls es
              Hskip Hread) as (t & sched' & -> & Hl & He & _).
  destruct (containerStatus env podName (container st)) as [err|].
  - cbn [bool_decide decide_rel fst]. rewrite bool_decide_eq_false_2 by done. cbn [fst].
    change (logsOf (?a :: ?l)) with (logsOf l).
    change (errorsOf (CallRead ?p ?c :: ?l)) with (errorsOf l).
    rewrite Streaming.logsOf_app, Streaming.errorsOf_app, Hl, He. done.
  - rewrite bool_decide_eq_true_2 by done. specialize (IH sched').
    destruct (readStepsLogs env r podName follow timestamps sched' rest) as [t' s'].
    cbn [fst] in *. destruct IH as [<- <-].
    change (logsOf ((?a :: ?l) ++ ?k)) with (logsOf (l ++ k)).
    change (errorsOf ((CallRead ?p ?c :: ?l) ++ ?k)) with (errorsOf (l ++ k)).
    rewrite !Streaming.logsOf_app, !Streaming.errorsOf_app, Hl, He.
    change (logsOf [CallStatus podName (container st)]) with (@nil Log).
    change (errorsOf [CallStatus podName (container st)]) with (@nil string).
    by rewrite !app_nil_r.
Qed.

(** X1: whatever the scheduler of the [select] does, the steps of a pod put
    on [logC], step after step, the lines of each step that is read and then
    its marker, nothing for a step that is passed over or whose log reader
    does not start, and nothing after a step whose status is an error; and
    they put on [errC] the errors that go with these. *)
Theorem steps_fill_channels_in_order (env : Env) (r : Reader) (podName : string)
    (follow timestamps : bool) (sched : list bool) (sts : list step) :
  logsOf (readStepsLogs env r podName follow timestamps sched sts).1
  = expectedLogs env r podName follow timestamps sts
  ∧ errorsOf (readStepsLogs env r podName follow timestamps sched sts).1
    = expectedErrors env podName follow timestamps sts.
Proof. apply readStepsLogs_channels. Qed.

(** X2: what the reader of the pods sends on [logC], what it sends on
    [errC] and how it ends do not depend on the scheduler. *)
Theorem channels_independent_of_scheduler (env : Env) (r : Reader) (follow timestamps : bool)
    (podNames : list string) :
  ∀ sched1 sched2,
    logsOf (readPodLogs env r follow timestamps sched1 podNames).1
    = logsOf (readPodLogs env r follow timestamps sched2 podNames).1
    ∧ errorsOf (readPodLogs env r follow timestamps sched1 podNames).1
      = errorsOf (readPodLogs env r follow timestamps sched2 podNames).1
    ∧ (readPodLogs env r follow timestamps sched1 podNames).2
      = (readPodLogs env r follow timestamps sched2 podNames).2.
Proof.
  induction podNames as [|podName rest IH]; intros sched1 sched2; [done|].
  rewrite !Streaming.readPodLogs_cons.
  destruct (fetched env follow podName) as [[pod err]|]; [|done].
  destruct (filterSteps pod (allSteps r) (steps r)) as [sts|msg]; [|done].
  destruct (readStepsLogs_channels env r podName follow timestamps sts sched1) as [Hl1 He1].
  destruct (readStepsLogs_channels env r podName follow timestamps sts sched2) as [Hl2 He2].
  destruct (readStepsLogs env r podName follow timestamps sched1 sts) as [t1 s1].
  destruct (readStepsLogs env r podName follow timestamps sched2 sts) as [t2 s2].
  destruct (IH s1 s2) as (Hl & He & Hend).
  destruct (readPodLogs env r follow timestamps s1 rest) as [t1' e1].
  destruct (readPodLogs env r follow timestamps s2 rest) as [t2' e2].
  cbn [fst snd] in *.
  rewrite !Streaming.logsOf_app, !Streaming.errorsOf_app. by rewrite Hl1, Hl2, He1, He2, Hl, He, Hend.
Qed.

Lemma expectedLogs_of_reader (env : Env) (r : Reader) (podName : string)
    (follow timestamps : bool) (sts : list step) :
  Forall (λ l, Task l = task r ∧ TaskDisplayName l = displayName r
               ∧ ∃ st, st ∈ sts ∧ Step l = name st)
         (expectedLogs env r podName follow timestamps sts).
Proof.
  induction sts as [|st rest IH]; [constructor|]. cbn [expectedLogs].
  assert (Forall (λ l, Task l = task r ∧ TaskDisplayName l = displayName r
                       ∧ ∃ st0, st0 ∈ st :: rest ∧ Step l = name st0)
                 (expectedLogs env r podName follow timestamps rest)) as Hrest.
  { eapply Forall_impl; [exact IH|]. intros l (Ht & Hd & st0 & Hin & Hs).
    split; [done|]. split; [done|]. exists st0. split; [by right|done]. }
  destruct (negb follow && negb (hasStarted st)); [exact Hrest|].
  destruct (logRead env podName (container st) follow timestamps) as [err|[ls es]];
    [exact Hrest|].
  apply Forall_app. split.
  - apply Forall_forall. intros l Hl. split; [|split].
    + apply elem_of_app in Hl as [(x & -> & _)%list_elem_of_fmap| ->%list_elem_of_singleton]; done.
    + apply elem_of_app in Hl as [(x & -> & _)%list_elem_of_fmap| ->%list_elem_of_singleton]; done.
    + exists st. split; [left|].
      apply elem_of_app in Hl as [(x & -> & _)%list_elem_of_fmap| ->%list_elem_of_singleton]; done.
  - destruct (containerStatus env podName (container st)); [constructor|exact Hrest].
Qed.

(** X3: every record that the reader of the pods sends on [logC] carries
    the task name and the display name of the reader. *)
Theorem logs_carry_task_of_reader (env : Env) (r : Reader) (follow timestamps : bool)
    (podNames : list string) :
  ∀ sched,
    Forall (λ l, Task l = task r ∧ TaskDisplayName l = displayName r)
           (logsOf (readPodLogs env r follow timestamps sched podNames).1).
Proof.
  induction podNames as [|podName rest IH]; intros sched; [constructor|].
  rewrite Streaming.readPodLogs_cons.
  destruct (fetched env follow podName) as [[pod err]|]; [|constructor].
  destruct (filterSteps pod (allSteps r) (steps r)) as [sts|msg].
  - destruct (readStepsLogs_channels env r podName follow timestamps sts sched) as [Hl _].
    destruct (readStepsLogs env r podName follow timestamps sched sts) as [t s'].
    specialize (IH s').
    destruct (readPodLogs env r follow timestamps s' rest) as [t' e].
    cbn [fst] in *. rewrite !Streaming.logsOf_app, Hl.
    apply Forall_app. split; [by destruct err|].
    apply Forall_app. split; [|exact IH].
    eapply Forall_impl; [apply expectedLogs_of_reader|]. intros l (? & ? & _). done.
  - cbn [fst]. by destruct err.
Qed.

(** X4: the pods are read one after the other, in the order of their names:
    reading [names1 ++ names2] is reading [names1] and then [names2]; and
    once the reader has panicked, or stays in a wait, nothing is done for
    the names that follow. *)
Theorem pods_are_read_in_order (env : Env) (r : Reader) (follow timestamps : bool)
    (names1 names2 : list string) :
  ∀ sched,
    match (readPodLogs env r follow timestamps sched names1).2 with
    | Finished =>
        ∃ sched',
          readPodLogs env r follow timestamps sched (names1 ++ names2)
          = ((readPodLogs env r follow timestamps sched names1).1
             ++ (readPodLogs env r follow timestamps sched' names2).1,
             (readPodLogs env r follow timestamps sched' names2).2)
    | _ =>
        readPodLogs env r follow timestamps sched (names1 ++ names2)
        = readPodLogs env r follow timestamps sched names1
    end.
Proof.
  induction names1 as [|podName rest IH]; intros sched.
  { cbn. exists sched. by destruct (readPodLogs env r follow timestamps sched names2). }
  rewrite <- app_comm_cons, !Streaming.readPodLogs_cons.
  destruct (fetched env follow podName) as [[pod err]|];
    [|by unfold stalled; destruct (getPod env follow podName)].
  destruct (filterSteps pod (allSteps r) (steps r)) as [sts|msg]; [|done].
  destruct (readStepsLogs env r podName follow timestamps sched sts) as [t s'].
  specialize (IH s').
  destruct (readPodLogs env r follow timestamps s' rest) as [t1 e1]. cbn [fst snd] in *.
  destruct e1.
  - destruct IH as [sched' ->]. exists sched'. cbn [fst snd]. by rewrite !app_assoc.
  - by rewrite IH.
  - by rewrite IH.
  - by rewrite IH.
Qed.

Lemma filterSteps_of_pod (pod : option Pod) (all : bool) (given : list string) :
  match pod with
  | Some _ => ∃ sts, filterSteps pod all given = Ret sts
  | None => filterSteps pod all given = Panic nilDereference
  end.
Proof.
  destruct pod as [pod|]; [|done].
  unfold filterSteps, getSteps, getInitSteps, mbind, outcome_bind.
  destruct all, (Nat.eqb (length given) 0); by eexists.
Qed.

Lemma decidesAt_cons (p0 : Pod) (events pre : list object) (p : Pod) (rest : list object) :
  checkPodStatus (ObjPod p0) = (None, None) →
  decidesAt events pre p rest → decidesAt (ObjPod p0 :: events) (ObjPod p0 :: pre) p rest.
Proof.
  intros Hno (-> & Hpre & Hp). split; [done|]. split; [by constructor|done].
Qed.

(** When the watch answers, hangs or crashes. *)
Lemma watchOutcome_spec (handlerFirst : bool) (events : list object) :
  match watchOutcome handlerFirst events with
  | Answered res =>
      waitLoop events = Some res ∧ is_Some res.1
      ∧ ∃ pre p rest, decidesAt events pre p rest ∧ (rest = [] ∨ handlerFirst = false)
  | Hangs => hangsWhen handlerFirst events
  | Crashes => crashesWhen handlerFirst events
  end.
Proof.
  induction events as [|[p|] es IH]; unfold hangsWhen, crashesWhen in *;
    cbn [watchOutcome waitLoop].
  - by left.
  - destruct (checkPodStatus (ObjPod p)) as [pod err] eqn:Hp.
    assert (pod = None ∨ pod = Some p) as Hpod.
    { cbn in Hp. destruct (DeletionTimestamp p); [by right; congruence|].
      destruct (readablePhase (Phase p)); [by right; congruence|].
      destruct (unknownCondition (Conditions p)); [right|left]; congruence. }
    assert ((pod, err) = (None, None) ∨ is_Some pod) as [[= -> ->]|[p' ->]].
    { destruct Hpod as [->| ->]; [|by right; eexists].
      cbn in Hp. destruct (DeletionTimestamp p); [congruence|].
      destruct (readablePhase (Phase p)); [congruence|].
      destruct (unknownCondition (Conditions p)); [congruence|]. left. congruence. }
    + destruct (watchOutcome handlerFirst es) as [res| |].
      * destruct IH as (Hl & Hs & pre & p' & rest & Hd & Hr).
        split; [done|]. split; [done|]. exists (ObjPod p :: pre), p', rest.
        split; [by apply decidesAt_cons|done].
      * destruct IH as [Hl|(Hf & pre & p' & next & rest & Hd)]; [by left|].
        right. split; [done|]. exists (ObjPod p :: pre), p', next, rest. by apply decidesAt_cons.
      * destruct IH as [(pre & rest & -> & Hpre)|(Hf & pre & p' & rest & Hd)].
        -- left. exists (ObjPod p :: pre), rest. split; [done|]. by constructor.
        -- right. split; [done|]. exists (ObjPod p :: pre), p', rest. by apply decidesAt_cons.
    + assert (∀ rest, decidesAt (ObjPod p :: rest) [] p rest) as Hd.
      { intros rest. split; [done|]. split; [constructor|]. by rewrite Hp. }
      assert (match err with
              | Some _ | None => Some (Some p', err)
              end = Some (Some p', err)) as Herr by by destruct err.
      destruct es as [|next es'].
      * destruct err; (split; [done|]); (split; [by eexists|]);
          exists [], p, []; (split; [done|by left]).
      * destruct handlerFirst.
        -- destruct next as [pn|].
           ++ right. split; [done|]. by exists [], p, pn, es'.
           ++ right. split; [done|]. by exists [], p, es'.
        -- destruct err; (split; [done|]); (split; [by eexists|]);
             exists [], p, (next :: es'); (split; [done|by right]).
  - left. by exists [], es.
Qed.

Lemma readPodLogs_ending (env : Env) (r : Reader) (follow timestamps : bool)
    (podNames : list string) :
  ∀ sched,
    ((readPodLogs env r follow timestamps sched podNames).2 = Blocked →
     follow = true
     ∧ ∃ n, n ∈ podNames ∧ (podGet env n).2 = None
            ∧ hangsWhen (handlerFirst env n) (podEvents env n))
    ∧ (∀ msg, (readPodLogs env r follow timestamps sched podNames).2 = Panicked msg →
       msg = nilDereference
       ∧ ∃ n err, n ∈ podNames ∧ fetched env follow n = Some (None, err))
    ∧ ((readPodLogs env r follow timestamps sched podNames).2 = Killed →
       follow = true
       ∧ ∃ n, n ∈ podNames ∧ (podGet env n).2 = None
              ∧ crashesWhen (handlerFirst env n) (podEvents env n)).
Proof.
  induction podNames as [|podName rest IH]; intros sched; [done|].
  rewrite Streaming.readPodLogs_cons.
  destruct (fetched env follow podName) as [[pod err]|] eqn:Hget.
  - pose proof (filterSteps_of_pod pod (allSteps r) (steps r)) as Hsteps.
    destruct pod as [pod|].
    + destruct Hsteps as [sts ->].
      destruct (readStepsLogs env r podName follow timestamps sched sts) as [t s'].
      destruct (IH s') as (Hb & Hp & Hk).
      destruct (readPodLogs env r follow timestamps s' rest) as [t' e]. cbn [snd] in *.
      split; [|split].
      * intros He. destruct (Hb He) as (Hf & n & Hin & Hw).
        split; [done|]. exists n. split; [by right|done].
      * intros msg He. destruct (Hp msg He) as (Hm & n & err' & Hin & Hf).
        split; [done|]. exists n, err'. split; [by right|done].
      * intros He. destruct (Hk He) as (Hf & n & Hin & Hw).
        split; [done|]. exists n. split; [by right|done].
    + rewrite Hsteps. cbn [snd]. split; [done|]. split; [|done]. intros msg [= <-].
      split; [done|]. exists podName, err. split; [left|done].
  - cbn [snd]. unfold fetched, stalled, getPod, WaitOutcome in *.
    destruct follow; [|done].
    destruct ((podGet env podName).2) as [perr|] eqn:Hprobe; [done|].
    pose proof (watchOutcome_spec (handlerFirst env podName) (podEvents env podName)) as Hout.
    destruct (watchOutcome (handlerFirst env podName) (podEvents env podName)); [done| |].
    + split; [|done]. intros _. split; [done|]. exists podName. split; [left|done].
    + split; [done|]. split; [done|]. intros _. split; [done|].
      exists podName. split; [left|done].
Qed.

(** X5: the reader of the pods leaves its loop and closes [logC] unless one
    of three things happens, the first two only with [follow]. It stays
    blocked in the wait for a pod that was found, when no event decides or
    when a pod event follows the deciding one and its handler gets the
    mutex first. It goes down with the process when a handler of such a wait
    is given something that is not a pod, before an event has decided or
    right after, its handler getting the mutex first. And it panics, with a
    nil dereference, only on a pod pointer that is [nil]. *)
Theorem reader_ends_unless_waiting_or_nil (env : Env) (r : Reader) (follow timestamps : bool)
    (podNames : list string) (sched : list bool) :
  ((readPodLogs env r follow timestamps sched podNames).2 = Blocked →
   follow = true
   ∧ ∃ n, n ∈ podNames ∧ (podGet env n).2 = None
          ∧ hangsWhen (handlerFirst env n) (podEvents env n))
  ∧ (∀ msg, (readPodLogs env r follow timestamps sched podNames).2 = Panicked msg →
     msg = nilDereference
     ∧ ∃ n err, n ∈ podNames ∧ fetched env follow n = Some (None, err))
  ∧ ((readPodLogs env r follow timestamps sched podNames).2 = Killed →
     follow = true
     ∧ ∃ n, n ∈ podNames ∧ (podGet env n).2 = None
            ∧ crashesWhen (handlerFirst env n) (podEvents env n)).
Proof. apply readPodLogs_ending. Qed.

Lemma reader_ends_unless_waiting_or_nil_witness :
  true = true
  ∧ ∃ n, n ∈ ["build-pod"] ∧ (podGet racingCluster n).2 = None
         ∧ hangsWhen (handlerFirst racingCluster n) (podEvents racingCluster n).
Proof.
  apply (proj1 (reader_ends_unless_waiting_or_nil racingCluster reader true false
                  ["build-pod"] [])).
  reflexivity.
Defined.

(** With the pod reported twice and the second handler first at the mutex,
    the reader with [follow] stays in its wait; without that race, and
    without [follow], it reads the pod. *)
Example reader_hangs_in_lost_race :
  readPodLogs racingCluster reader true false [] ["build-pod"] = ([], Blocked)
  ∧ (readPodLogs racingCluster reader false false [] ["build-pod"]).2 = Finished
  ∧ (readPodLogs cluster reader true false [] ["build-pod"]).2 = Finished.
Proof. split; [|split]; vm_compute; reflexivity. Qed.

End Channels.

(** ** The entry point of the reader *)

Module Entry.
Import corev1 pods v1 log sample.

Example formatInt_samples :
  (formatInt 0, formatInt 7, formatInt 120, formatInt (-35)) = ("0", "7", "120", "-35").
Proof. reflexivity. Qed.

Lemma nonEmpty_false (n : string) : nonEmpty n = false ↔ n = "".
Proof. unfold nonEmpty. destruct (String.eqb_spec n ""); split; intros; done. Qed.

(** X6: [formTaskName] leaves a task name that was given alone. Otherwise
    it takes the label tekton.dev/pipelineTask when the run has it, even an
    empty one; else the name of the task reference; else "Task <number>",
    which is not empty. It changes nothing but the task name, and forming
    the name a second time changes nothing. *)
Theorem formTaskName_priority (r : Reader) (tr : TaskRunObject) :
  (task r ≠ "" → formTaskName r tr = r)
  ∧ (task r = "" → ∀ label, Labels tr !! "tekton.dev/pipelineTask" = Some label →
     task (formTaskName r tr) = label)
  ∧ (task r = "" → Labels tr !! "tekton.dev/pipelineTask" = None →
     ∀ ref, SpecTaskRef tr = Some ref → task (formTaskName r tr) = ref_Name ref)
  ∧ (task r = "" → Labels tr !! "tekton.dev/pipelineTask" = None → SpecTaskRef tr = None →
     task (formTaskName r tr) = "Task " +:+ formatInt (number r)
     ∧ task (formTaskName r tr) ≠ "")
  ∧ formTaskName r tr = withTask (task (formTaskName r tr)) r
  ∧ formTaskName (formTaskName r tr) tr = formTaskName r tr.
Proof.
  assert (formTaskName r tr
          = if nonEmpty (task r) then r
            else withTask (match Labels tr !! "tekton.dev/pipelineTask" with
                           | Some label => label
                           | None => match SpecTaskRef tr with
                                     | Some ref => ref_Name ref
                                     | None => "Task " +:+ formatInt (number r)
                                     end
                           end) r) as Hform.
  { unfold formTaskName. destruct (nonEmpty (task r)); [done|].
    destruct (Labels tr !! "tekton.dev/pipelineTask"); [done|]. by destruct (SpecTaskRef tr). }
  destruct (nonEmpty (task r)) eqn:Hgiven.
  - apply Discovery.nonEmpty_spec in Hgiven as Hne. rewrite Hform.
    split; [done|]. split; [done|]. split; [done|]. split; [done|].
    split; [by destruct r|]. unfold formTaskName. by rewrite Hgiven.
  - apply nonEmpty_false in Hgiven as Hempty. rewrite Hform.
    split; [done|]. split; [by intros _ label ->|].
    split; [by intros _ -> ref ->|].
    split; [intros _ -> ->; split; [done|discriminate]|].
    split; [done|].
    set (name := match Labels tr !! "tekton.dev/pipelineTask" with
                 | Some label => label
                 | None => match SpecTaskRef tr with
                           | Some ref => ref_Name ref
                           | None => "Task " +:+ formatInt (number r)
                           end
                 end) in *.
    unfold formTaskName. cbn [task withTask].
    destruct (nonEmpty name); [done|]. fold name.
    destruct (Labels tr !! "tekton.dev/pipelineTask"); [done|]. by destruct (SpecTaskRef tr).
Qed.

Lemma formTaskName_priority_witness :
  task (formTaskName anonymous pipelineRunTask) = "compile-all".
Proof.
  apply (proj1 (proj2 (formTaskName_priority anonymous pipelineRunTask))).
  - reflexivity.
  - vm_compute. reflexivity.
Defined.

Lemma availablePodNames_attempts (tr : TaskRun) :
  PodName tr ≠ "" → availablePodNames tr = attempts tr.
Proof.
  intros Hp%Discovery.nonEmpty_spec. unfold availablePodNames, attempts. rewrite Hp.
  by destruct (RetriesStatus tr).
Qed.

(** X7: available mode starts to read exactly when the run has started,
    has a pod name, and has not failed or the reader has a stream to print
    the failure on. It then reads the attempts of the run in order, without
    [follow], and never stays blocked. A run that has not started is
    answered with "task <name> has not started yet", whatever else holds. *)
Theorem available_mode_starts_iff (env : Env) (r : Reader) (sched : list bool) (tr : TaskRun) :
  ((∃ res, readAvailableTaskLogs env r sched tr = inr res)
   ↔ HasStarted tr = true ∧ (hasStream r = true ∨ isFailure tr = false) ∧ PodName tr ≠ "")
  ∧ (∀ res, readAvailableTaskLogs env r sched tr = inr res →
       res = readPodLogs env r false (timestamps r) sched (attempts tr) ∧ res.2 ≠ Blocked)
  ∧ (HasStarted tr = false →
     readAvailableTaskLogs env r sched tr = inl ("task " +:+ task r +:+ " has not started yet")).
Proof.
  destruct (Discovery.hasTaskRunFailed_spec tr (task r)) as [Hfail Hok].
  unfold readAvailableTaskLogs.
  destruct (HasStarted tr); cbn [negb].
  2: { split; [|done]. split; [by intros [res Hres]|by intros [? _]]. }
  destruct (nonEmpty (PodName tr)) eqn:Hp.
  - apply Discovery.nonEmpty_spec in Hp as Hne. cbn [negb].
    destruct (hasStream r).
    + split; [|split; [|done]].
      * split; [intros _|by eexists]. split; [done|]. split; [by left|done].
      * intros res [= <-]. rewrite availablePodNames_attempts by done. split; [done|].
        intros Hb. by destruct (proj1 (Channels.readPodLogs_ending env r false (timestamps r)
                                         (attempts tr) sched) Hb).
    + destruct (isFailure tr) eqn:Hf.
      * destruct (Hfail eq_refl) as (c & cs & _ & _ & ->).
        split; [|done]. split; [by intros [res Hres]|]. by intros (_ & [?|?] & _).
      * rewrite (Hok eq_refl). split; [|split; [|done]].
        -- split; [intros _|by eexists]. split; [done|]. split; [by right|done].
        -- intros res [= <-]. rewrite availablePodNames_attempts by done. split; [done|].
           intros Hb. by destruct (proj1 (Channels.readPodLogs_ending env r false (timestamps r)
                                            (attempts tr) sched) Hb).
  - apply nonEmpty_false in Hp as Hempty. cbn [negb].
    split; [|split; [|done]].
    + split.
      * intros [res Hres]. by destruct (if hasStream r then None else hasTaskRunFailed tr (task r)).
      * by intros (_ & _ & ?).
    + intros res Hres. by destruct (if hasStream r then None else hasTaskRunFailed tr (task r)).
Qed.

Lemma available_mode_starts_iff_witness :
  ∃ res, readAvailableTaskLogs cluster reader [] buildRun = inr res.
Proof.
  apply (proj1 (available_mode_starts_iff cluster reader [] buildRun)).
  split; [reflexivity|]. split; [by right|discriminate].
Defined.

(** The reader of the pods does not look at the field [follow] of the
    reader: it is told by its caller whether to follow. *)
Lemma selectLoop_withFollow (f : bool) (r : Reader) (st : step) (n : nat) :
  ∀ sched lc ec,
    selectLoop (withFollow f r) st n sched lc ec = selectLoop r st n sched lc ec.
Proof.
  induction n as [|n IH]; intros sched lc ec; [done|]. cbn [selectLoop].
  assert (selectOnce (withFollow f r) st (List.hd true sched) lc ec
          = selectOnce r st (List.hd true sched) lc ec) as ->.
  { by destruct lc as [[|l ls]|], ec as [[|e es]|]. }
  destruct lc, ec; try done;
    destruct (selectOnce r st (List.hd true sched) _ _) as [out [lc' ec']]; by rewrite IH.
Qed.

Lemma readStepsLogs_withFollow (f : bool) (env : Env) (r : Reader) (podName : string)
    (follow timestamps : bool) (sts : list step) :
  ∀ sched,
    readStepsLogs env (withFollow f r) podName follow timestamps sched sts
    = readStepsLogs env r podName follow timestamps sched sts.
Proof.
  induction sts as [|st rest IH]; intros sched; [done|].
  rewrite !Streaming.readStepsLogs_cons.
  assert (readStep env (withFollow f r) podName follow timestamps sched st
          = readStep env r podName follow timestamps sched st) as ->.
  { unfold readStep. destruct (negb follow && negb (hasStarted st)); [done|].
    destruct (logRead env podName (container st) follow timestamps) as [err|[ls es]]; [done|].
    by rewrite selectLoop_withFollow. }
  destruct (readStep env r podName follow timestamps sched st) as [[t s'] goOn].
  by rewrite IH.
Qed.

Lemma readPodLogs_withFollow (f : bool) (env : Env) (r : Reader) (follow timestamps : bool)
    (podNames : list string) :
  ∀ sched,
    readPodLogs env (withFollow f r) follow timestamps sched podNames
    = readPodLogs env r follow timestamps sched podNames.
Proof.
  induction podNames as [|podName rest IH]; intros sched; [done|].
  rewrite !Streaming.readPodLogs_cons. cbn [allSteps steps withFollow].
  destruct (fetched env follow podName) as [[pod err]|]; [|done].
  assert (podFailure env (withFollow f r) err = podFailure env r err) as -> by by destruct err.
  destruct (filterSteps pod (allSteps r) (steps r)) as [sts|msg]; [|done].
  rewrite readStepsLogs_withFollow.
  destruct (readStepsLogs env r podName follow timestamps sched sts) as [t s'].
  by rewrite IH.
Qed.

Lemma formTaskName_withFollow (f : bool) (r : Reader) (tr : TaskRunObject) :
  formTaskName (withFollow f r) tr = withFollow f (formTaskName r tr).
Proof.
  unfold formTaskName. cbn [task withFollow].
  destruct (nonEmpty (task r)); [done|].
  destruct (Labels tr !! "tekton.dev/pipelineTask"); [done|]. by destruct (SpecTaskRef tr).
Qed.

Lemma readAvailableTaskLogs_withFollow (f : bool) (env : Env) (r : Reader)
    (sched : list bool) (tr : TaskRun) :
  readAvailableTaskLogs env (withFollow f r) sched tr = readAvailableTaskLogs env r sched tr.
Proof.
  unfold readAvailableTaskLogs. cbn [task hasStream timestamps withFollow].
  by rewrite readPodLogs_withFollow.
Qed.

(** X8: for a run that is done, [readTaskLog] reads in available mode
    whether or not the reader follows: the result is the same with and
    without [follow], the watch is not used, nothing is forwarded from a
    discovery, and the reading never stays blocked. *)
Theorem finished_run_ignores_follow (env : Env) (r : Reader) (sched : list bool)
    (tr : TaskRunObject) (watch watch' : string + list watchInput) (f : bool) :
  IsDone (obj_run tr) = true →
  readTaskLog env r sched (inr tr) watch = readTaskLog env (withFollow f r) sched (inr tr) watch'
  ∧ ∀ res, readTaskLog env r sched (inr tr) watch = inr res →
      res.1 = [] ∧ res.2.2 ≠ Blocked.
Proof.
  intros Hdone. unfold readTaskLog. rewrite Hdone. cbn [negb andb].
  rewrite formTaskName_withFollow, readAvailableTaskLogs_withFollow.
  split; [done|]. intros res.
  destruct (readAvailableTaskLogs env (formTaskName r tr) sched (obj_run tr))
    as [err|res'] eqn:Havail; [done|].
  intros [= <-]. split; [done|]. cbn [snd].
  unfold readAvailableTaskLogs in Havail.
  destruct (negb (HasStarted (obj_run tr))); [done|].
  destruct (if hasStream (formTaskName r tr) then None
            else hasTaskRunFailed (obj_run tr) (task (formTaskName r tr))); [done|].
  destruct (negb (nonEmpty (PodName (obj_run tr)))); [done|].
  injection Havail as <-. intros Hb.
  by destruct (proj1 (Channels.readPodLogs_ending env (formTaskName r tr) false
                        (timestamps (formTaskName r tr))
                        (availablePodNames (obj_run tr)) sched) Hb).
Qed.

Lemma finished_run_ignores_follow_witness :
  readTaskLog cluster anonymous [] (inr pipelineRunTask) (inl "watch refused")
  = readTaskLog cluster (withFollow false anonymous) [] (inr pipelineRunTask) (inr [])
  ∧ ∀ res, readTaskLog cluster anonymous [] (inr pipelineRunTask) (inl "watch refused") = inr res →
      res.1 = [] ∧ res.2.2 ≠ Blocked.
Proof.
  apply (finished_run_ignores_follow cluster anonymous [] pipelineRunTask
           (inl "watch refused") (inr []) false).
  reflexivity.
Defined.

End Entry.

(** ** Waiting for a pod *)

Module Waiting.
Import corev1 pods v1 log sample.

Lemma checkPodStatus_sound (e : object) (pod : option Pod) (err : error) :
  checkPodStatus e = (pod, err) →
  (pod = None → err = None ∨ e = ObjOther)
  ∧ (err = None → ∀ p, pod = Some p → e = ObjPod p ∧ readable p ∧ DeletionTimestamp p = None).
Proof.
  destruct e as [p|]; cbn [checkPodStatus]; [|intros [= <- <-]; split; [by right|done]].
  destruct (DeletionTimestamp p) eqn:Hd; [by intros [= <- <-]|].
  destruct (readablePhase (Phase p)) eqn:Hr.
  - intros [= <- <-]. split; [done|]. intros _ p' [= <-].
    by apply PodWatcher.readablePhase_spec in Hr.
  - destruct (unknownCondition (Conditions p)); intros [= <- <-]; split; by try left.
Qed.

Lemma waitLoop_sound (events : list object) (pod : option Pod) (err : error) :
  waitLoop events = Some (pod, err) →
  (pod, err) ≠ (None, None)
  ∧ (∃ e, e ∈ events ∧ checkPodStatus e = (pod, err)).
Proof.
  induction events as [|e es IH]; [done|]. cbn [waitLoop].
  destruct (checkPodStatus e) as [[p|] [m|]] eqn:He.
  1-3: intros [= <- <-]; split; [done|]; exists e; split; [left|done].
  intros Hrest. destruct (IH Hrest) as (Hne & e' & Hin & He').
  split; [done|]. exists e'. split; [by right|done].
Qed.

(** X9: [Wait] never returns neither pod nor error. When it returns
    without an error, the probe had found the pod, and the pod it returns
    was reported by one of the events, is in phase Succeeded, Running or
    Failed and is not being deleted. When it returns no pod, there is an
    error: that of the probe, or that of an event that was not a pod. *)
Theorem Wait_answer_is_sound (got : option Pod * error) (events : list object)
    (pod : option Pod) (err : error) :
  Wait got events = Some (pod, err) →
  (pod, err) ≠ (None, None)
  ∧ (err = None →
     ∃ p, pod = Some p ∧ got.2 = None ∧ ObjPod p ∈ events
          ∧ readable p ∧ DeletionTimestamp p = None)
  ∧ (pod = None → is_Some err ∧ (got.2 = err ∨ ObjOther ∈ events)).
Proof.
  unfold Wait. destruct (got.2) as [perr|] eqn:Hprobe.
  { intros [= <- <-]. split; [done|]. split; [done|]. intros _. split; [by eexists|by left]. }
  intros Hloop. destruct (waitLoop_sound events pod err Hloop) as (Hne & e & Hin & He).
  destruct (checkPodStatus_sound e pod err He) as [Hnil Hok].
  split; [done|]. split.
  - intros ->. destruct pod as [p|]; [|done].
    destruct (Hok eq_refl p eq_refl) as (-> & Hr & Hd). by exists p.
  - intros ->. destruct (Hnil eq_refl) as [->| ->]; [done|].
    split; [|by right]. destruct err; [by eexists|done].
Qed.

Lemma Wait_answer_is_sound_witness :
  (Some buildPod, @None string) ≠ (None, None)
  ∧ (@None string = None →
     ∃ p, Some buildPod = Some p ∧ (podGet cluster "build-pod").2 = None
          ∧ ObjPod p ∈ podEvents cluster "build-pod"
          ∧ readable p ∧ DeletionTimestamp p = None)
  ∧ (Some buildPod = None →
     is_Some (@None string)
     ∧ ((podGet cluster "build-pod").2 = None ∨ ObjOther ∈ podEvents cluster "build-pod")).
Proof.
  apply (Wait_answer_is_sound (podGet cluster "build-pod")
           (podEvents cluster "build-pod") (Some buildPod) None).
  reflexivity.
Defined.

Lemma reachable_trans (w0 w1 w2 : world) :
  reachable w0 w1 → reachable w1 w2 → reachable w0 w2.
Proof.
  intros H01 H12. induction H12 as [|w w' _ IH Hmove]; [done|].
  by eapply reach_step.
Qed.

(** X10: in every state that the goroutines of [Wait] can reach, no
    handler has sent, or is about to send, on the closed [eventC]; the mutex
    is not held by the handler and by [Wait] at once; [eventC] is closed
    only when [stopC] is; and once [Wait] has returned, both are closed. *)
Theorem closing_is_safe (events : list object) (s : world) :
  reachable (start events) s →
  hdl s ≠ HPanicked
  ∧ (∀ e, hdl s = HSend e → eventClosed s = false)
  ∧ handlerHolds (hdl s) && waiterHolds (wt s) = false
  ∧ (eventClosed s = true → stopClosed s = true)
  ∧ (returned s → stopClosed s = true ∧ eventClosed s = true).
Proof.
  intros (Hmu & Hex & Hstop & Hevent & Hsend)%WaitProtocol.protocol_reachable.
  split; [by intros Hp; rewrite Hp in Hsend|]. split.
  { intros e He. rewrite He in Hsend, Hex. rewrite Hevent.
    destruct (wt s); cbn in *; congruence. }
  split; [done|]. split.
  { rewrite Hstop, Hevent. by destruct (wt s). }
  intros [res Hres]. by rewrite Hstop, Hevent, Hres.
Qed.

Lemma closing_is_safe_witness :
  hdl (start reportedTwice) ≠ HPanicked
  ∧ (∀ e, hdl (start reportedTwice) = HSend e → eventClosed (start reportedTwice) = false)
  ∧ handlerHolds (hdl (start reportedTwice)) && waiterHolds (wt (start reportedTwice)) = false
  ∧ (eventClosed (start reportedTwice) = true → stopClosed (start reportedTwice) = true)
  ∧ (returned (start reportedTwice)
     → stopClosed (start reportedTwice) = true ∧ eventClosed (start reportedTwice) = true).
Proof.
  apply (closing_is_safe reportedTwice (start reportedTwice)). apply reach_start.
Defined.

Lemma podsOnly_move (s s' : world) : protocol s → podsOnly s → move s s' → podsOnly s'.
Proof.
  intros (_ & _ & _ & Hevent & _) [Hh Hw] Hmove.
  destruct Hmove; unfold podsOnly in *; cbn [wt hdl eventClosed eventDone] in *;
    try done; try (split; [done|]; by destruct w).
  split; [done|]. destruct e as [p|]; [|done].
  unfold received. cbn [checkPodStatus].
  destruct (DeletionTimestamp p); [by eexists|].
  destruct (readablePhase (Phase p)); [by eexists|].
  destruct (unknownCondition (Conditions p)); [by eexists|done].
Qed.

Lemma podsOnly_reachable (events : list object) (s : world) :
  reachable (start events) s → podsOnly s.
Proof.
  induction 1 as [|s s' Hreach IH Hmove]; [done|].
  apply (podsOnly_move s s'); [by eapply WaitProtocol.protocol_reachable|done|done].
Qed.

(** A pod event is taken by its handler and received by [Wait]. *)
Lemma pod_event_path (p : Pod) (es : list object) :
  reachable (start (ObjPod p :: es))
    {| wt := received (ObjPod p); hdl := HIdle; queue := es; mu := None;
       stopClosed := false; eventClosed := false |}.
Proof.
  eapply reach_step; [|apply handler_unlock with (m := Some ByHandler)].
  eapply reach_step; [|apply rendezvous].
  eapply reach_step; [|apply handler_default].
  eapply reach_step; [|apply handler_lock].
  apply reach_start.
Qed.

(** The deferred function of [Wait], the mutex being free. *)
Lemma closing_path (res : option Pod * error) (es : list object) :
  reachable {| wt := WLock res; hdl := HIdle; queue := es; mu := None;
               stopClosed := false; eventClosed := false |}
            {| wt := WReturned res; hdl := HIdle; queue := es; mu := None;
               stopClosed := true; eventClosed := true |}.
Proof.
  eapply reach_step; [|apply waiter_unlock with (m := Some ByWaiter)].
  eapply reach_step; [|apply waiter_close_event with (ec := false)].
  eapply reach_step; [|apply waiter_close_stop with (sc := false)].
  eapply reach_step; [|apply waiter_lock].
  apply reach_start.
Qed.

(** The handler of the next event gets the mutex first. *)
Lemma lost_race_path (w : waiter) (next : object) (es : list object) :
  reachable {| wt := w; hdl := HIdle; queue := next :: es; mu := None;
               stopClosed := false; eventClosed := false |}
            {| wt := w;
               hdl := match next with ObjPod _ => HSend next | ObjOther => HCrashed end;
               queue := es; mu := Some ByHandler;
               stopClosed := false; eventClosed := false |}.
Proof.
  destruct next as [p|].
  - eapply reach_step; [|apply handler_default].
    eapply reach_step; [|apply handler_lock]. apply reach_start.
  - eapply reach_step; [|apply handler_crash].
    eapply reach_step; [|apply handler_lock]. apply reach_start.
Qed.

Lemma lost_race_stuck (w : waiter) (next : object) (es : list object) :
  w = WRecv ∧ next = ObjOther ∨ (∃ res, w = WLock res) →
  stuck {| wt := w;
           hdl := match next with ObjPod _ => HSend next | ObjOther => HCrashed end;
           queue := es; mu := Some ByHandler;
           stopClosed := false; eventClosed := false |}.
Proof.
  intros [[-> ->]|[res ->]] s' Hmove; [|destruct next]; inversion Hmove.
Qed.

(** After the event that decides. *)
Lemma decided_run (handlerFirst : bool) (p : Pod) (es : list object) :
  checkPodStatus (ObjPod p) ≠ (None, None) →
  match (match es with
         | [] => Answered (checkPodStatus (ObjPod p))
         | next :: _ =>
             if handlerFirst then
               match next with
               | ObjPod _ => Hangs
               | ObjOther => Crashes
               end
             else Answered (checkPodStatus (ObjPod p))
         end) with
  | Answered res =>
      ∃ s, reachable (start (ObjPod p :: es)) s ∧ wt s = WReturned res
           ∧ stopClosed s = true ∧ eventClosed s = true
  | Hangs =>
      ∃ s, reachable (start (ObjPod p :: es)) s ∧ stuck s ∧ ¬ returned s ∧ hdl s ≠ HCrashed
  | Crashes =>
      ∃ s, reachable (start (ObjPod p :: es)) s ∧ stuck s ∧ ¬ returned s ∧ hdl s = HCrashed
  end.
Proof.
  intros Hdec.
  assert (reachable (start (ObjPod p :: es))
            {| wt := WLock (checkPodStatus (ObjPod p)); hdl := HIdle; queue := es; mu := None;
               stopClosed := false; eventClosed := false |}) as Hpath.
  { pose proof (pod_event_path p es) as Hpath.
    destruct (WaitProtocol.received_cases (ObjPod p)) as [[Hno _]|[_ Hr]]; [done|].
    by rewrite Hr in Hpath. }
  assert (∃ s, reachable (start (ObjPod p :: es)) s
               ∧ wt s = WReturned (checkPodStatus (ObjPod p))
               ∧ stopClosed s = true ∧ eventClosed s = true) as Hanswer.
  { eexists. split; [eapply reachable_trans; [exact Hpath|apply closing_path]|done]. }
  destruct es as [|next es']; [exact Hanswer|].
  destruct handlerFirst; [|exact Hanswer].
  pose proof (lost_race_path (WLock (checkPodStatus (ObjPod p))) next es') as Hrace.
  pose proof (lost_race_stuck (WLock (checkPodStatus (ObjPod p))) next es') as Hstuck.
  destruct next as [pn|]; eexists;
    (split; [eapply reachable_trans; [exact Hpath|exact Hrace]|]);
    (split; [apply Hstuck; right; by eexists|]);
    (split; [by intros [res Hres]|done]).
Qed.

(** What the reader assumes of a wait is what the goroutines can do. *)
Lemma watchOutcome_run (handlerFirst : bool) (events : list object) :
  match watchOutcome handlerFirst events with
  | Answered res =>
      ∃ s, reachable (start events) s ∧ wt s = WReturned res
           ∧ stopClosed s = true ∧ eventClosed s = true
  | Hangs =>
      ∃ s, reachable (start events) s ∧ stuck s ∧ ¬ returned s ∧ hdl s ≠ HCrashed
  | Crashes =>
      ∃ s, reachable (start events) s ∧ stuck s ∧ ¬ returned s ∧ hdl s = HCrashed
  end.
Proof.
  induction events as [|[p|] es IH]; cbn [watchOutcome].
  - exists (start []). split; [apply reach_start|]. split; [|split; [|done]].
    + intros s' Hmove. inversion Hmove.
    + by intros [res Hres].
  - pose proof (decided_run handlerFirst p es) as Hdec.
    pose proof (pod_event_path p es) as Hpath.
    destruct (WaitProtocol.received_cases (ObjPod p)) as [[Hno Hr]|[Hyes _]].
    + rewrite Hr in Hpath. rewrite Hno.
      destruct (watchOutcome handlerFirst es);
        destruct IH as (s & Hreach & Hs); exists s;
        (split; [by eapply reachable_trans|done]).
    + specialize (Hdec Hyes).
      by destruct (checkPodStatus (ObjPod p)) as [[pod|] [err|]].
  - pose proof (lost_race_path WRecv ObjOther es) as Hrace.
    eexists. split; [exact Hrace|].
    split; [apply (lost_race_stuck WRecv ObjOther es); by left|].
    split; [by intros [res Hres]|done].
Qed.

(** X11: whatever the interleaving, a result that [Wait] returns after its
    probe is what the first deciding event decides, and it has a pod: what
    is not a pod never reaches [Wait]. And each way in which the reader
    takes a wait to come out is a run of the goroutines: the answer of the
    first deciding event, with both channels closed, when no event follows
    it or [Wait] is first at the mutex; goroutines that are stuck without
    [Wait] having returned, when no event decides or the handler of a
    following pod event is first at the mutex; a handler that has panicked,
    when it is given something that is not a pod while [stopC] is open. *)
Theorem Wait_returns_the_first_decision (events : list object) (handlerFirst : bool) :
  (∀ s res, reachable (start events) s → wt s = WReturned res →
     waitLoop events = Some res ∧ is_Some res.1)
  ∧ match watchOutcome handlerFirst events with
    | Answered res =>
        waitLoop events = Some res
        ∧ ∃ s, reachable (start events) s ∧ wt s = WReturned res
               ∧ stopClosed s = true ∧ eventClosed s = true
    | Hangs =>
        hangsWhen handlerFirst events
        ∧ ∃ s, reachable (start events) s ∧ stuck s ∧ ¬ returned s ∧ hdl s ≠ HCrashed
    | Crashes =>
        crashesWhen handlerFirst events
        ∧ ∃ s, reachable (start events) s ∧ stuck s ∧ ¬ returned s ∧ hdl s = HCrashed
    end.
Proof.
  split.
  - intros s res Hreach Hret. split; [by eapply WaitProtocol.Wait_returns_first_answer|].
    destruct (podsOnly_reachable events s Hreach) as [_ Hw]. by rewrite Hret in Hw.
  - pose proof (Channels.watchOutcome_spec handlerFirst events) as Hspec.
    pose proof (watchOutcome_run handlerFirst events) as Hrun.
    destruct (watchOutcome handlerFirst events); [|done|done].
    split; [apply Hspec|done].
Qed.

Lemma Wait_returns_the_first_decision_witness :
  waitLoop reportedTwice = Some (Some buildPod, None) ∧ is_Some (Some buildPod, @None string).1.
Proof.
  destruct (proj2 (Wait_returns_the_first_decision reportedTwice false))
    as (_ & s & Hreach & Hret & _).
  apply (proj1 (Wait_returns_the_first_decision reportedTwice false) s (Some buildPod, None)).
  - exact Hreach.
  - exact Hret.
Defined.

End Waiting.

(** ** What discovery sends, and when it ends *)

Module Retrying.
Import corev1 pods v1 log sample.

Lemma watchLoop_done (r : Reader) (run seen : TaskRun) (d : discovery) (i : watchInput) :
  observed run i = Some seen → IsDone seen = true → PodName seen ≠ "" →
  ∃ d', (∀ rest, watchLoop r run d (i :: rest) = (d', Returned))
        ∧ ∀ n, n ∈ podC d' → n ∈ podC d ∨ n = PodName seen.
Proof.
  intros Hobs Hdone Hne%Discovery.nonEmpty_spec.
  assert (areRetriesScheduled seen (retries r) = false) as Hno.
  { unfold areRetriesScheduled. by rewrite Hdone. }
  destruct i as [[err|run']| |]; cbn [observed] in Hobs; [done| | |done];
    injection Hobs as ->; cbn [watchLoop].
  - rewrite Hne, Hno. cbn [negb]. eexists. split; [done|].
    intros n. unfold addPod. destruct (podMap d !! PodName seen); [by left|].
    cbn. rewrite elem_of_app, list_elem_of_singleton. tauto.
  - unfold onTimeout. rewrite Hne, Hno.
    destruct (hasTaskRunFailed seen (task r)); [|destruct (HasStarted seen)];
      cbn [andb]; eexists; (split; [done|]); by left.
Qed.

(** X12: a run that is done and has a pod name ends discovery as soon as an
    event, or the timer, shows it, however many retries the reader expects:
    what comes after that input is not looked at. *)
Theorem discovery_ends_when_run_done (r : Reader) (run run1 seen : TaskRun)
    (d d1 : discovery) (pre post : list watchInput) (i : watchInput) :
  watchLoop r run d pre = (d1, Watching run1) →
  observed run1 i = Some seen →
  IsDone seen = true → PodName seen ≠ "" →
  watchLoop r run d (pre ++ i :: post) = watchLoop r run d (pre ++ [i])
  ∧ (watchLoop r run d (pre ++ i :: post)).2 = Returned
  ∧ ∀ n, n ∈ podC (watchLoop r run d (pre ++ i :: post)).1 → n ∈ podC d1 ∨ n = PodName seen.
Proof.
  intros Hpre Hobs Hdone Hne.
  rewrite !(Discovery.watchLoop_app r pre _ run d d1 run1 Hpre).
  destruct (watchLoop_done r run1 seen d1 i Hobs Hdone Hne) as (d' & Hend & Hin).
  rewrite !Hend. done.
Qed.

Lemma discovery_ends_when_run_done_witness :
  watchLoop patient firstAttempt noPods ([] ++ WatchEvent (inr buildRun) :: [TimeoutFired])
  = watchLoop patient firstAttempt noPods ([] ++ [WatchEvent (inr buildRun)])
  ∧ (watchLoop patient firstAttempt noPods
       ([] ++ WatchEvent (inr buildRun) :: [TimeoutFired])).2 = Returned
  ∧ ∀ n, n ∈ podC (watchLoop patient firstAttempt noPods
                     ([] ++ WatchEvent (inr buildRun) :: [TimeoutFired])).1
         → n ∈ podC noPods ∨ n = PodName buildRun.
Proof.
  apply (discovery_ends_when_run_done patient firstAttempt firstAttempt buildRun
           noPods noPods [] [TimeoutFired] (WatchEvent (inr buildRun)));
    first [reflexivity | discriminate].
Defined.

(** X13: an event that shows a run without a pod name sends nothing and
    does not end discovery, even when the run has failed: discovery only
    takes the run as the one it holds. A run that has failed before it got
    a pod is therefore reported when the timer fires, with its failure. *)
Theorem failure_before_pod_waits_for_timer (r : Reader) (run run' : TaskRun) (d : discovery) :
  PodName run' = "" →
  (∀ rest, watchLoop r run d (WatchEvent (inr run') :: rest) = watchLoop r run' d rest)
  ∧ watchLoop r run d [WatchEvent (inr run')] = (d, Watching run')
  ∧ (isFailure run' = true →
     ∃ c cs, tr_Conditions run' = c :: cs
             ∧ watchLoop r run d [WatchEvent (inr run'); TimeoutFired]
               = (sendErr ("task " +:+ task r +:+ " has failed: " +:+ cond_Message c) d,
                  Returned)).
Proof.
  intros Hp. cbn [watchLoop]. unfold nonEmpty. rewrite Hp. cbn [String.eqb negb].
  split; [done|]. split; [done|]. intros Hf.
  destruct (proj1 (Discovery.hasTaskRunFailed_spec run' (task r)) Hf) as (c & cs & Hcs & _ & He).
  exists c, cs. split; [done|]. unfold onTimeout. by rewrite He.
Qed.

Lemma failure_before_pod_waits_for_timer_witness :
  (∀ rest, watchLoop patient firstAttempt noPods (WatchEvent (inr failedRun) :: rest)
           = watchLoop patient failedRun noPods rest)
  ∧ watchLoop patient firstAttempt noPods [WatchEvent (inr failedRun)]
    = (noPods, Watching failedRun)
  ∧ (isFailure failedRun = true →
     ∃ c cs, tr_Conditions failedRun = c :: cs
             ∧ watchLoop patient firstAttempt noPods [WatchEvent (inr failedRun); TimeoutFired]
               = (sendErr ("task " +:+ task patient +:+ " has failed: " +:+ cond_Message c)
                    noPods,
                  Returned)).
Proof.
  apply (failure_before_pod_waits_for_timer patient firstAttempt failedRun noPods).
  reflexivity.
Defined.

(** X14: every name that the loop of discovery adds to what has been sent
    on [podC] is the pod name of a run that an event carried, and is not
    empty. *)
Theorem loop_sends_pod_names_of_events (r : Reader) (inputs : list watchInput) :
  ∀ (run : TaskRun) (d : discovery) (n : string),
    n ∈ podC (watchLoop r run d inputs).1 →
    n ∈ podC d
    ∨ (n ≠ "" ∧ ∃ run', WatchEvent (inr run') ∈ inputs ∧ PodName run' = n).
Proof.
  induction inputs as [|[[err|run']| |] rest IH]; intros run d n; cbn [watchLoop].
  5: by left.
  - by left.
  - by left.
  - assert (∀ m, m ∈ podC (addPod (PodName run') d) → m ∈ podC d ∨ m = PodName run') as Hadd.
    { intros m. unfold addPod. destruct (podMap d !! PodName run'); [by left|].
      cbn. rewrite elem_of_app, list_elem_of_singleton. tauto. }
    destruct (nonEmpty (PodName run')) eqn:Hne.
    + apply Discovery.nonEmpty_spec in Hne.
      assert (n ∈ podC (addPod (PodName run') d) →
              n ∈ podC d ∨ n ≠ "" ∧ ∃ run'0, WatchEvent (inr run'0) ∈ WatchEvent (inr run') :: rest
                                             ∧ PodName run'0 = n) as Hhere.
      { intros [?| ->]%Hadd; [by left|]. right. split; [done|]. exists run'. split; [left|done]. }
      destruct (negb (areRetriesScheduled run' (retries r))); [exact Hhere|].
      intros [Hin|(Hn & run'' & Hin & Hp)]%IH; [by apply Hhere|].
      right. split; [done|]. exists run''. split; [by right|done].
    + intros [Hin|(Hn & run'' & Hin & Hp)]%IH; [by left|].
      right. split; [done|]. exists run''. split; [by right|done].
  - destruct (onTimeout r run) as [[err|]|]; [by left|by left|].
    intros [Hin|(Hn & run'' & Hin & Hp)]%IH; [by left|].
    right. split; [done|]. exists run''. split; [by right|done].
Qed.

Lemma loop_sends_pod_names_of_events_witness :
  "p1" ∈ podC (announce firstAttempt noPods)
  ∨ ("p1" ≠ "" ∧ ∃ run', WatchEvent (inr run') ∈ [WatchEvent (inr retried)] ∧ PodName run' = "p1").
Proof.
  apply (loop_sends_pod_names_of_events patient [WatchEvent (inr retried)] firstAttempt
           (announce firstAttempt noPods) "p1").
  apply (list_elem_of_lookup_2 _ 1). reflexivity.
Defined.

Lemma watchLoop_errC (r : Reader) (inputs : list watchInput) :
  ∀ (run : TaskRun) (d : discovery),
    ((watchLoop r run d inputs).2 = Returned
     ∧ ∃ e, errC (watchLoop r run d inputs).1 = errC d ++ [e])
    ∨ errC (watchLoop r run d inputs).1 = errC d.
Proof.
  induction inputs as [|[[err|run']| |] rest IH]; intros run d; cbn [watchLoop].
  5: by right.
  - by right.
  - left. split; [done|]. by exists err.
  - destruct (nonEmpty (PodName run')); [|apply IH].
    destruct (negb (areRetriesScheduled run' (retries r))).
    + right. apply Discovery.addPod_errC.
    + rewrite <- (Discovery.addPod_errC (PodName run') d). apply IH.
  - destruct (onTimeout r run) as [[err|]|]; [|by right|apply IH].
    left. split; [done|]. by exists err.
Qed.

Lemma announce_errC (run : TaskRun) (d : discovery) : errC (announce run d) = errC d.
Proof.
  unfold announce.
  assert (∀ rss d0, errC (foldl (λ d rs, addPod (rs_PodName rs) d) d0 rss) = errC d0) as Hfold.
  { induction rss as [|rs rss IH]; intros d0; [done|].
    cbn [foldl]. by rewrite IH, Discovery.addPod_errC. }
  destruct (nonEmpty (PodName run)); rewrite ?Discovery.addPod_errC;
    destruct (negb (Nat.eqb (length (RetriesStatus run)) 0)); by rewrite ?Hfold.
Qed.

(** X15: discovery sends at most one error on its error channel, and when
    it has sent one it has returned and closed its channels. *)
Theorem discovery_sends_at_most_one_error (r : Reader) (run : TaskRun)
    (inputs : list watchInput) :
  (length (errC (watchLoop r run (announce run noPods) inputs).1) ≤ 1)%nat
  ∧ (errC (watchLoop r run (announce run noPods) inputs).1 ≠ [] →
     (watchLoop r run (announce run noPods) inputs).2 = Returned).
Proof.
  destruct (watchLoop_errC r inputs run (announce run noPods)) as [[Hret [e He]]|He];
    rewrite He, announce_errC; cbn; split; try done; lia.
Qed.

Lemma discovery_sends_at_most_one_error_witness :
  (watchLoop patient failedRun (announce failedRun noPods) [TimeoutFired]).2 = Returned.
Proof.
  apply (proj2 (discovery_sends_at_most_one_error patient failedRun [TimeoutFired])).
  discriminate.
Defined.

End Retrying.

(** ** From containers to steps *)

Module Naming.
Import corev1 pods v1 log sample.

Lemma cutPrefix_app (p s : string) : cutPrefix p (p +:+ s) = Some s.
Proof.
  induction p as [|a p IH]; [done|].
  change (String a p +:+ s) with (String a (p +:+ s)).
  cbn -[Ascii.eqb]. by rewrite Ascii.eqb_refl.
Qed.

Lemma cutPrefix_Some (p : string) : ∀ s s', cutPrefix p s = Some s' → s = p +:+ s'.
Proof.
  induction p as [|a p IH]; intros s s'; cbn -[Ascii.eqb]; [by intros [= ->]|].
  destruct s as [|b s]; [done|].
  destruct (Ascii.eqb_spec a b) as [->|]; [|done].
  intros ->%IH. done.
Qed.

Lemma TrimPrefix_with (p s : string) : TrimPrefix (p +:+ s) p = s.
Proof. unfold TrimPrefix. by rewrite cutPrefix_app. Qed.

Lemma TrimPrefix_without (p s : string) : (∀ s', s ≠ p +:+ s') → TrimPrefix s p = s.
Proof.
  intros Hno. unfold TrimPrefix. destruct (cutPrefix p s) as [s'|] eqn:E; [|done].
  by apply cutPrefix_Some, Hno in E.
Qed.

(** X16: the step of a container named "step-<n>" is named n, and the step
    of a container whose name does not start with "step-" keeps the
    container's name; either way the step remembers the full name of its
    container. So a container "step-<n>" and a container "<n>" of one pod
    give two steps of the same name. *)
Theorem step_name_of_container (status status' : gmap string ContainerState) (n image : string) :
  name (mkStep status {| c_Name := "step-" +:+ n; c_Image := image |}) = n
  ∧ container (mkStep status {| c_Name := "step-" +:+ n; c_Image := image |}) = "step-" +:+ n
  ∧ ((∀ m, n ≠ "step-" +:+ m) →
     name (mkStep status' {| c_Name := n; c_Image := image |}) = n
     ∧ name (mkStep status' {| c_Name := n; c_Image := image |})
       = name (mkStep status {| c_Name := "step-" +:+ n; c_Image := image |})).
Proof.
  unfold mkStep. cbn [name container c_Name].
  rewrite (TrimPrefix_with "step-" n). split; [done|]. split; [done|].
  intros Hno. by rewrite TrimPrefix_without.
Qed.

Lemma step_name_of_container_witness :
  name (mkStep ∅ {| c_Name := "sidecar-proxy"; c_Image := "envoy" |}) = "sidecar-proxy"
  ∧ name (mkStep ∅ {| c_Name := "sidecar-proxy"; c_Image := "envoy" |})
    = name (mkStep ∅ {| c_Name := "step-" +:+ "sidecar-proxy"; c_Image := "envoy" |}).
Proof.
  apply (proj2 (proj2 (step_name_of_container ∅ ∅ "sidecar-proxy" "envoy"))).
  intros m Hm. discriminate Hm.
Defined.

Lemma sublist_fmap_of {A B} (f : A → B) (l k : list A) :
  l `sublist_of` k → f <$> l `sublist_of` f <$> k.
Proof. induction 1; cbn; by constructor. Qed.

Lemma sublist_List_filter {A} (f : A → bool) (l : list A) : List.filter f l `sublist_of` l.
Proof.
  induction l as [|x l IH]; cbn; [done|]. destruct (f x); by constructor.
Qed.

(** X17: [filterSteps] neither reorders nor invents steps. The containers
    of the steps it returns are, in the order of the pod spec, some of the
    init containers when all steps are asked for, and then some of the
    containers; every step has the name of its container without the prefix
    "step-"; without an allow-list every container has its step; and with
    one, the steps after the init steps have names on the list. *)
Theorem filterSteps_keeps_order (pod : Pod) (all : bool) (given : list string)
    (sts : list step) :
  filterSteps (Some pod) all given = Ret sts →
  container <$> sts
    `sublist_of` (if all then c_Name <$> InitContainers pod else [])
                 ++ (c_Name <$> Containers pod)
  ∧ Forall (λ st, name st = TrimPrefix (container st) "step-") sts
  ∧ (given = [] →
     container <$> sts
     = (if all then c_Name <$> InitContainers pod else []) ++ (c_Name <$> Containers pod))
  ∧ (given ≠ [] →
     Forall (λ st, name st ∈ given)
            (drop (if all then length (InitContainers pod) else 0) sts)).
Proof.
  unfold filterSteps, getSteps, getInitSteps, mbind, outcome_bind.
  set (inits := if all then map (mkStep (statusOf (InitContainerStatuses pod)))
                               (InitContainers pod) else []).
  set (regular := map (mkStep (statusOf (ContainerStatuses pod))) (Containers pod)).
  assert ((if all then Ret (map (mkStep (statusOf (InitContainerStatuses pod)))
                              (InitContainers pod)) else Ret []) = Ret inits) as ->.
  { unfold inits. by destruct all. }
  assert (container <$> inits = (if all then c_Name <$> InitContainers pod else [])) as Hi.
  { unfold inits. destruct all; [|done].
    rewrite <- list_fmap_compose. by apply list_fmap_ext. }
  assert (container <$> regular = c_Name <$> Containers pod) as Hr.
  { unfold regular. rewrite <- list_fmap_compose. by apply list_fmap_ext. }
  assert (Forall (λ st, name st = TrimPrefix (container st) "step-") (inits ++ regular)) as Hn.
  { apply Forall_app. split; [unfold inits; destruct all; [|constructor]|unfold regular];
      apply Forall_forall; intros st (c & -> & _)%list_elem_of_fmap; done. }
  assert (length inits = (if all then length (InitContainers pod) else 0)) as Hlen.
  { unfold inits. destruct all; [apply length_map|done]. }
  destruct (Nat.eqb (length given) 0) eqn:Hg; intros [= <-].
  - rewrite fmap_app, Hi, Hr. split; [done|]. split; [done|]. split; [done|].
    intros Hne. destruct given; [done|discriminate Hg].
  - rewrite fmap_app, Hi. split.
    { apply sublist_app; [done|]. rewrite <- Hr. apply sublist_fmap_of, sublist_List_filter. }
    split.
    { apply Forall_app in Hn as [Hn1 Hn2]. apply Forall_app. split; [done|].
      apply Forall_forall. intros st Hst%list_elem_of_In%filter_In.
      destruct Hst as [Hst%list_elem_of_In _]. by eapply Forall_forall in Hn2. }
    split; [by intros ->|]. intros _.
    rewrite <- Hlen, drop_app_length. apply Forall_forall.
    intros st Hst%list_elem_of_In%filter_In. destruct Hst as [_ Hst].
    rewrite Steps.stepsToAdd_lookup in Hst. by apply bool_decide_eq_true in Hst.
Qed.

Lemma filterSteps_keeps_order_witness :
  container <$> [test]
    `sublist_of` (if false then c_Name <$> InitContainers buildPod else [])
                 ++ (c_Name <$> Containers buildPod)
  ∧ Forall (λ st, name st = TrimPrefix (container st) "step-") [test]
  ∧ (["test"] = [] →
     container <$> [test]
     = (if false then c_Name <$> InitContainers buildPod else [])
       ++ (c_Name <$> Containers buildPod))
  ∧ (["test"] ≠ [] →
     Forall (λ st, name st ∈ ["test"])
            (drop (if false then length (InitContainers buildPod) else 0) [test])).
Proof.
  apply (filterSteps_keeps_order buildPod false ["test"] [test]).
  vm_compute. reflexivity.
Defined.

End Naming.
